(** * ETASCatGen: the (M, t) catalog generator of [cpp/src/catgen_M_t.cpp]

    A shallow embedding of the event-driven ETAS simulation and the
    properties of its samplers, its schedule and its driver.

    Numeric model.  The C++ code computes in [double].  It is embedded
    twice.

    - In exact arithmetic: a [double] is a real number ([R]) and
      [std::exp], [std::log], [std::pow] are [exp], [ln] and [Rpower].
      This reading carries the control flow of the simulation (which
      branch is taken, what is pushed and popped, how many variates are
      drawn, what the loops write) and the closed forms of the samplers.
      A statement on the value of a closed form is a statement in exact
      arithmetic, and says so; it is made only where every divisor is
      non-zero and every logarithm and power has a positive argument (the
      [_finite] predicates).

    - In binary64 arithmetic (module [Binary64]): a [double] is a finite
      number, an infinity or NaN, every operation rounds, overflows and
      underflows as IEEE 754 has it, and the C library is a parameter.
      This reading is the one the machine runs; what fails in it, fails
      in the code.

    Module [IEEE] holds the doubles with their special values and the
    rules of the arithmetic for them.

    [size_t] counters are integers modulo [2^64], with the wrap-around
    written out. *)

From Stdlib Require Import Reals Lra Lia ZArith String List Permutation Epsilon.
Import ListNotations.
Local Open Scope R_scope.

(** ** Process parameters (struct [Process_M_t]) *)

Module Process_M_t.

Record t : Type := Build {
  mu_0 : R;   (* Frequency *)
  Tref : R;   (* Time *)
  c : R;      (* Time *)
  beta : R;
  Mr : R;
  p : R;
  ln_p : R;
  FK : R      (* Frequency: K / Tref^p *)
}.

End Process_M_t.

(** [Process_M_t::critical_FK], operand for operand. *)
Definition critical_FK (Mmin Mmax p c Tref beta Mr : R) : R :=
  (p - 1) *
  exp (p * ln (c / Tref)) / c
  * (1 - exp (- beta * (Mmax - Mmin)))
  / (beta * exp (beta * (Mmin - Mr)) * (Mmax - Mmin)).

(** The constructor [Process_M_t::Process_M_t]. *)
Definition new_Process_M_t
    (mu_0 Tref c beta Mr p Mmin Mmax offspring_fraction : R) : Process_M_t.t :=
  Process_M_t.Build mu_0 Tref c beta Mr p (ln p)
    (critical_FK Mmin Mmax p c Tref beta Mr * offspring_fraction).

(** ** Samplers *)

(** [f]: the excitation factor of magnitude [M]. *)
Definition f (M : R) (process : Process_M_t.t) : R :=
  exp (Process_M_t.beta process * (M - Process_M_t.Mr process)).

(** [Lambda_i_oo]: the expected number of children of ancestor [(ti, Mi)]
    after [tl]. *)
Definition Lambda_i_oo (ti tl Mi : R) (process : Process_M_t.t) : R :=
  let _1mp := 1 - Process_M_t.p process in
  - f Mi process * Process_M_t.Tref process * Process_M_t.FK process / _1mp *
  Rpower ((tl - ti + Process_M_t.c process) / Process_M_t.Tref process) _1mp.

(** [next_single_occurrence]: [None] is the empty [std::optional<Time>]. *)
Definition next_single_occurrence (q ti Mi tl : R) (process : Process_M_t.t)
    : option R :=
  if Rle_dec q (exp (- Lambda_i_oo ti tl Mi process)) then None
  else
    let _1mp := 1 - Process_M_t.p process in
    Some (ti - Process_M_t.c process + Process_M_t.Tref process * exp (
      1 / _1mp * ln (
        Rpower ((tl - ti + Process_M_t.c process) / Process_M_t.Tref process) _1mp
        - _1mp / (f Mi process * Process_M_t.FK process * Process_M_t.Tref process)
          * ln q))).

(** [next_background_occurrence]. *)
Definition next_background_occurrence (q tl : R) (process : Process_M_t.t) : R :=
  tl - ln q / Process_M_t.mu_0 process.

(** The logarithm of [next_background_occurrence] has a positive argument
    and its quotient a non-zero divisor. *)
Definition next_background_occurrence_finite (q : R) (process : Process_M_t.t)
    : Prop :=
  0 < q /\ Process_M_t.mu_0 process <> 0.

(** [draw_magnitude]. *)
Definition draw_magnitude (q Mmin Mmax beta : R) : R :=
  Mmin - ln (1 - q * (1 - exp (- beta * (Mmax - Mmin)))) / beta.

(** The logarithm of [draw_magnitude] has a positive argument and its
    quotient a non-zero divisor. *)
Definition draw_magnitude_finite (q Mmin Mmax beta : R) : Prop :=
  0 < 1 - q * (1 - exp (- beta * (Mmax - Mmin))) /\ beta <> 0.

(** [Lambda_i_oo] divides by non-zero numbers and raises a positive base. *)
Definition Lambda_i_oo_finite (ti tl : R) (process : Process_M_t.t) : Prop :=
  1 - Process_M_t.p process <> 0 /\
  Process_M_t.Tref process <> 0 /\
  0 < (tl - ti + Process_M_t.c process) / Process_M_t.Tref process.

(** [next_single_occurrence]: the test evaluates [Lambda_i_oo]; past the
    early exit both logarithms have positive arguments and the quotients
    non-zero divisors. *)
Definition next_single_occurrence_finite (q ti Mi tl : R)
    (process : Process_M_t.t) : Prop :=
  Lambda_i_oo_finite ti tl process /\
  (~ q <= exp (- Lambda_i_oo ti tl Mi process) ->
   0 < q /\
   f Mi process * Process_M_t.FK process * Process_M_t.Tref process <> 0 /\
   0 < Rpower ((tl - ti + Process_M_t.c process) / Process_M_t.Tref process)
              (1 - Process_M_t.p process)
       - (1 - Process_M_t.p process)
         / (f Mi process * Process_M_t.FK process * Process_M_t.Tref process)
         * ln q).

(** The probability mass [1 - e^(-beta (Mmax - Mmin))] that the truncation
    of the Gutenberg-Richter law keeps; the factor of [q] in
    [draw_magnitude]. *)
Definition truncation_weight (Mmin Mmax beta : R) : R :=
  1 - exp (- beta * (Mmax - Mmin)).

(** ** The formulas as the specification writes them *)

(** The tail integral of the Omori-Utsu excitation from [tl] to infinity. *)
Definition Lambda_tail (ti tl Mi : R) (process : Process_M_t.t) : R :=
  f Mi process * Process_M_t.Tref process * Process_M_t.FK process
  / (Process_M_t.p process - 1)
  * Rpower ((tl - ti + Process_M_t.c process) / Process_M_t.Tref process)
           (1 - Process_M_t.p process).

(** The closed-form inverse of the waiting-time distribution. *)
Definition t_next_inverse (q ti Mi tl : R) (process : Process_M_t.t) : R :=
  ti - Process_M_t.c process + Process_M_t.Tref process *
  exp ((1 / (1 - Process_M_t.p process)) *
       ln (Rpower ((tl - ti + Process_M_t.c process) / Process_M_t.Tref process)
                  (1 - Process_M_t.p process)
           - ((1 - Process_M_t.p process)
              / (f Mi process * Process_M_t.FK process * Process_M_t.Tref process))
             * ln q)).

(** The critical triggering scale [K*] for [Mr = Mmin]. *)
Definition K_star (Mmin Mmax p c beta : R) : R :=
  (p - 1) * Rpower c (p - 1) * (1 - exp (- beta * (Mmax - Mmin)))
  / (beta * (Mmax - Mmin)).

(** ** Doubles with special values

    A double is a finite number, one of the two infinities or NaN.  The
    operations of this module follow IEEE 754 and the C library on the
    special values and are exact on the finite ones; those of module
    [Binary64] round.  A zero has no sign: a non-zero number divided by
    zero is the infinity of the dividend's sign. *)

Module IEEE.

Inductive double : Type :=
  | finite (r : R)
  | pos_inf
  | neg_inf
  | nan.

Definition sign_case {A : Type} (r : R) (negative zero positive : A) : A :=
  match total_order_T r 0 with
  | inleft (left _) => negative
  | inleft (right _) => zero
  | inright _ => positive
  end.

Definition opp (x : double) : double :=
  match x with
  | finite r => finite (- r)
  | pos_inf => neg_inf
  | neg_inf => pos_inf
  | nan => nan
  end.

Definition add (x y : double) : double :=
  match x, y with
  | nan, _ | _, nan => nan
  | finite a, finite b => finite (a + b)
  | pos_inf, neg_inf | neg_inf, pos_inf => nan
  | pos_inf, _ | _, pos_inf => pos_inf
  | neg_inf, _ | _, neg_inf => neg_inf
  end.

Definition sub (x y : double) : double := add x (opp y).

(** The product of a finite number and the positive infinity. *)
Definition scaled_infinity (r : R) : double := sign_case r neg_inf nan pos_inf.

Definition mul (x y : double) : double :=
  match x, y with
  | nan, _ | _, nan => nan
  | finite a, finite b => finite (a * b)
  | finite a, pos_inf | pos_inf, finite a => scaled_infinity a
  | finite a, neg_inf | neg_inf, finite a => opp (scaled_infinity a)
  | pos_inf, pos_inf | neg_inf, neg_inf => pos_inf
  | pos_inf, neg_inf | neg_inf, pos_inf => neg_inf
  end.

Definition div (x y : double) : double :=
  match x, y with
  | nan, _ | _, nan => nan
  | finite a, finite b =>
      if Req_dec_T b 0 then scaled_infinity a else finite (a / b)
  | finite _, pos_inf | finite _, neg_inf => finite 0
  | pos_inf, finite b => sign_case b neg_inf pos_inf pos_inf
  | neg_inf, finite b => sign_case b pos_inf neg_inf neg_inf
  | pos_inf, pos_inf | pos_inf, neg_inf
  | neg_inf, pos_inf | neg_inf, neg_inf => nan
  end.

(** [std::exp] and [std::log]. *)
Definition exp (x : double) : double :=
  match x with
  | finite r => finite (Rtrigo_def.exp r)
  | pos_inf => pos_inf
  | neg_inf => finite 0
  | nan => nan
  end.

Definition log (x : double) : double :=
  match x with
  | finite r => sign_case r nan neg_inf (finite (ln r))
  | pos_inf => pos_inf
  | neg_inf => nan
  | nan => nan
  end.

Definition is_integer (y : R) : bool :=
  if Req_dec_T (IZR (Int_part y)) y then true else false.

Definition is_odd_integer (y : R) : bool :=
  is_integer y && Z.odd (Int_part y).

(** [x] raised to an infinite power, by the size of [|x|] against one. *)
Definition limit_power (a : R) (below at_one above : double) : double :=
  match total_order_T (Rabs a) 1 with
  | inleft (left _) => below
  | inleft (right _) => at_one
  | inright _ => above
  end.

(** [<=] on doubles: false as soon as an operand is NaN. *)
Definition le (x y : double) : bool :=
  match x, y with
  | nan, _ | _, nan => false
  | finite a, finite b => if Rle_dec a b then true else false
  | neg_inf, _ | _, pos_inf => true
  | _, _ => false
  end.

Declare Scope double_scope.
Delimit Scope double_scope with D.
Bind Scope double_scope with double.

Notation "x + y" := (add x y) : double_scope.
Notation "x - y" := (sub x y) : double_scope.
Notation "x * y" := (mul x y) : double_scope.
Notation "x / y" := (div x y) : double_scope.
Notation "- x" := (opp x) : double_scope.

Local Open Scope double_scope.

Definition one : double := finite 1.

Record Process_M_t : Type := Build {
  mu_0 : double;
  Tref : double;
  c : double;
  beta : double;
  Mr : double;
  p : double;
  ln_p : double;
  FK : double
}.

(** [draw_magnitude] on the special values. *)
Definition draw_magnitude (q Mmin Mmax beta : double) : double :=
  Mmin - log (one - q * (one - exp (- beta * (Mmax - Mmin)))) / beta.

End IEEE.

(** ** Descendant streams (struct [excitement_t]) *)

Module excitement_t.

Record t : Type := Build {
  ti : R;
  M : R;
  tnext : R
}.

(** [operator>] and [operator<]: the order is reversed, so that the
    max-heap [std::priority_queue] serves the smallest [tnext] first. *)
Definition gt (a other : t) : Prop := tnext a < tnext other.
Definition lt (a other : t) : Prop := tnext a > tnext other.

Definition with_tnext (e : t) (tn : R) : t := Build (ti e) (M e) tn.

End excitement_t.

(** ** The collaborators taken from the C++ standard library *)

(** [std::priority_queue<excitement_t>], by its interface.  [pq_elements]
    is the content of the queue, in no particular order; [pq_top] is [None]
    on an empty queue, where the C++ call is undefined. *)
Class PriorityQueue (Q : Type) : Type := {
  pq_empty : Q;
  pq_is_empty : Q -> bool;
  pq_top : Q -> option excitement_t.t;
  pq_pop : Q -> Q;
  pq_push : excitement_t.t -> Q -> Q;
  pq_elements : Q -> list excitement_t.t
}.

(** The contract of the queue: [top] is an element that is not [<] any
    other one, [pop] removes it, [push] adds one element. *)
Record PriorityQueueLaws {Q : Type} (PQ : PriorityQueue Q) : Prop := {
  pq_empty_elements : pq_elements pq_empty = [];
  pq_is_empty_spec : forall q, pq_is_empty q = true <-> pq_elements q = [];
  pq_top_none : forall q, pq_top q = None <-> pq_elements q = [];
  pq_top_spec : forall q e, pq_top q = Some e ->
    In e (pq_elements q) /\
    forall x, In x (pq_elements q) -> ~ excitement_t.lt e x;
  pq_pop_spec : forall q e, pq_top q = Some e ->
    Permutation (pq_elements q) (e :: pq_elements (pq_pop q));
  pq_push_spec : forall q e,
    Permutation (pq_elements (pq_push e q)) (e :: pq_elements q)
}.

(** [std::mt19937_64 rng(seed)] together with
    [std::uniform_real_distribution<double> uniform(0.0, 1.0)]: an engine
    state built from the seed, and a draw that returns a variate and the
    advanced state. *)
Class RandomEngine (G : Type) : Type := {
  rng_seed : Z -> G;
  uniform : G -> R * G
}.

(** Modelled from the spec: the range of the generator, whose code is in
    the C++ standard library and not in this repository.  The spec has the
    generator never return an endpoint of the unit interval. *)
Definition uniform_open {G : Type} (RE : RandomEngine G) : Prop :=
  forall g : G, 0 < fst (uniform g) < 1.

(** ** [size_t] arithmetic and counting loops *)

Definition size_modulus : Z := 2 ^ 64.

Definition size_wrap (z : Z) : Z := z mod size_modulus.

Section While.

Context {A : Type} (body : A -> A).

(** [while (n < bound) { body; ++n; }] over [size_t] counters. *)
Fixpoint while_lt_fuel (fuel : nat) (bound n : Z) (a : A) : Z * A :=
  match fuel with
  | O => (n, a)
  | S fuel' =>
      if (n <? bound)%Z
      then while_lt_fuel fuel' bound (size_wrap (n + 1)) (body a)
      else (n, a)
  end.

(** The loop leaves after [bound - n] rounds: that much fuel is exact. *)
Definition while_lt (bound n : Z) (a : A) : Z * A :=
  while_lt_fuel (Z.to_nat (bound - n)) bound n a.

End While.

(** Assignment through an output iterator at position [i].  A position past
    the end (undefined in C++) leaves the buffer as it is. *)
Fixpoint write_at (i : nat) (v : R) (buf : list R) : list R :=
  match buf, i with
  | [], _ => []
  | _ :: rest, O => v :: rest
  | x :: rest, S i' => x :: write_at i' v rest
  end.

(** ** Sanity checks *)

(** The sanity checks at the head of [ETAS_generate_catalog_M_t]: the
    message of the exception thrown, if any. *)
Definition sanity (Mmin Mmax p offspring_fraction : R) : option string :=
  if Rge_dec Mmin Mmax then Some "Mmin >= Mmax"%string
  else if Rle_dec p 1 then Some "p <= 1"%string
  else if Rge_dec offspring_fraction 1
       then Some "Instable process (offspring ratio > 1)"%string
  else if Rlt_dec offspring_fraction 0
       then Some "Offspring ratio needs to be non-negative."%string
  else None.

(** ** The simulation *)

Section Simulation.

Context {G : Type} {RE : RandomEngine G} {Q : Type} {PQ : PriorityQueue Q}.

(** What the closure [next_event] captures by reference. *)
Record sim_state : Type := Build_sim_state {
  st_rng : G;
  st_t : R;
  st_M : R;
  st_next_bg : R;
  st_descendants : Q
}.

(** [descendants.empty() || next_bg < descendants.top().tnext] *)
Definition takes_background (s : sim_state) : bool :=
  pq_is_empty (st_descendants s) ||
  match pq_top (st_descendants s) with
  | Some top => if Rlt_dec (st_next_bg s) (excitement_t.tnext top) then true else false
  | None => true
  end.

(** The branch of a background event. *)
Definition background_event (process : Process_M_t.t) (s : sim_state) : sim_state :=
  let t := st_next_bg s in
  let q := fst (uniform (st_rng s)) in
  Build_sim_state (snd (uniform (st_rng s))) t (st_M s)
    (next_background_occurrence q t process)
    (st_descendants s).

(** The branch of a descendant event: [event] is the popped top. *)
Definition descendant_event (process : Process_M_t.t) (event : excitement_t.t)
    (s : sim_state) : sim_state :=
  let popped := pq_pop (st_descendants s) in
  let t := excitement_t.tnext event in
  let q := fst (uniform (st_rng s)) in
  let descendants :=
    match next_single_occurrence q (excitement_t.ti event) (excitement_t.M event)
            t process with
    | Some tnext => pq_push (excitement_t.with_tnext event tnext) popped
    | None => popped
    end in
  Build_sim_state (snd (uniform (st_rng s))) t (st_M s) (st_next_bg s) descendants.

(** First half of [next_event]: get the next occurrence time. *)
Definition next_time (process : Process_M_t.t) (s : sim_state) : sim_state :=
  if takes_background s then background_event process s
  else
    match pq_top (st_descendants s) with
    | Some event => descendant_event process event s
    | None => background_event process s
    end.

(** Second half of [next_event]: the magnitude of the event and its first
    child, if any. *)
Definition mark_and_trigger (Mmin Mmax beta : R) (process : Process_M_t.t)
    (s : sim_state) : sim_state :=
  let M := draw_magnitude (fst (uniform (st_rng s))) Mmin Mmax beta in
  let g := snd (uniform (st_rng s)) in
  let q := fst (uniform g) in
  let t := st_t s in
  let descendants :=
    match next_single_occurrence q t M t process with
    | Some tnext => pq_push (excitement_t.Build t M tnext) (st_descendants s)
    | None => st_descendants s
    end in
  Build_sim_state (snd (uniform g)) t M (st_next_bg s) descendants.

(** The closure [next_event]. *)
Definition next_event (Mmin Mmax beta : R) (process : Process_M_t.t)
    (s : sim_state) : sim_state :=
  mark_and_trigger Mmin Mmax beta process (next_time process s).

(** The state of the second loop: the simulation, both buffers and the
    position of the output iterators. *)
Record out_state : Type := Build_out_state {
  out_sim : sim_state;
  out_M : list R;
  out_t : list R;
  out_pos : nat
}.

(** Body of the second loop: generate, save, advance the iterators. *)
Definition emit_event (Mmin Mmax beta : R) (process : Process_M_t.t)
    (o : out_state) : out_state :=
  let s := next_event Mmin Mmax beta process (out_sim o) in
  Build_out_state s
    (write_at (out_pos o) (st_M s) (out_M o))
    (write_at (out_pos o) (st_t s) (out_t o))
    (S (out_pos o)).

(** The state when the loops start.  [M] starts as a quiet NaN in C++ and is
    assigned by [next_event] before it is read; zero stands for it here. *)
Definition initial_state (process : Process_M_t.t) (seed : Z) : sim_state :=
  let g := rng_seed seed in
  let t := 0 in
  Build_sim_state (snd (uniform g)) t 0
    (next_background_occurrence (fst (uniform g)) t process)
    pq_empty.

(** [ETAS_generate_catalog_M_t]: [inl] is the message of the
    [std::runtime_error] thrown, [inr] the two buffers [(Mi, ti)] at
    return. *)
Definition ETAS_generate_catalog_M_t
    (mu_0 Mmin Mmax beta p c Mr offspring_fraction : R)
    (N_skip seed : Z) (Mi ti : list R) : string + (list R * list R) :=
  match sanity Mmin Mmax p offspring_fraction with
  | Some what => inl what
  | None =>
      let N := Z.of_nat (length Mi) in
      if negb (Z.of_nat (length ti) =? N)%Z
      then inl "Size of M and t not compatible"%string
      else
        let Tref := 1 in
        let process :=
          new_Process_M_t mu_0 Tref c beta Mr p Mmin Mmax offspring_fraction in
        let warm :=
          while_lt (next_event Mmin Mmax beta process) N_skip 0
                   (initial_state process seed) in
        let done :=
          while_lt (emit_event Mmin Mmax beta process)
                   (size_wrap (N + N_skip)) (fst warm)
                   (Build_out_state (snd warm) Mi ti O) in
        inr (out_M (snd done), out_t (snd done))
  end.

End Simulation.

Arguments sim_state G Q : clear implicits.
Arguments out_state G Q : clear implicits.

(** ** Vocabulary of the statements *)

(** [k] rounds of a loop body, and the states they go through. *)
Fixpoint iterate {A : Type} (step : A -> A) (k : nat) (a : A) : A :=
  match k with
  | O => a
  | S k' => iterate step k' (step a)
  end.

Fixpoint trajectory {A : Type} (step : A -> A) (k : nat) (a : A) : list A :=
  match k with
  | O => []
  | S k' => step a :: trajectory step k' (step a)
  end.

(** A buffer whose first slots were overwritten by [written]. *)
Definition overlay (written buf : list R) : list R :=
  written ++ skipn (List.length written) buf.

(** The sanity checks pass, and the three parameters they do not look at
    lie where the arithmetic of the samplers is defined and time moves
    forward. *)
Definition well_posed (mu_0 Mmin Mmax beta p c offspring_fraction : R) : Prop :=
  sanity Mmin Mmax p offspring_fraction = None /\
  0 < mu_0 /\ 0 < c /\ beta <> 0.

Section StepVocabulary.

Context {G : Type} {RE : RandomEngine G} {Q : Type} {PQ : PriorityQueue Q}.

(** Every sampler evaluation of one call of [next_event] is defined: each
    logarithm has a positive argument, each power a positive base, each
    quotient a non-zero divisor. *)
Definition next_event_finite (Mmin Mmax beta : R) (process : Process_M_t.t)
    (s : sim_state G Q) : Prop :=
  let q := fst (uniform (st_rng s)) in
  let s1 := next_time process s in
  let qM := fst (uniform (st_rng s1)) in
  let qc := fst (uniform (snd (uniform (st_rng s1)))) in
  (if takes_background s then next_background_occurrence_finite q process
   else
     match pq_top (st_descendants s) with
     | Some event =>
         next_single_occurrence_finite q (excitement_t.ti event)
           (excitement_t.M event) (excitement_t.tnext event) process
     | None => next_background_occurrence_finite q process
     end) /\
  draw_magnitude_finite qM Mmin Mmax beta /\
  next_single_occurrence_finite qc (st_t s1)
    (draw_magnitude qM Mmin Mmax beta) (st_t s1) process.

(** What the schedule maintains: the pending background candidate and the
    pending child of every open stream lie at or after the current time, and
    no child precedes its ancestor. *)
Definition schedule_invariant (s : sim_state G Q) : Prop :=
  st_t s <= st_next_bg s /\
  Forall (fun e => excitement_t.ti e <= excitement_t.tnext e /\
                   st_t s <= excitement_t.tnext e)
         (pq_elements (st_descendants s)).

End StepVocabulary.

Section RunVocabulary.

Context {G : Type} {RE : RandomEngine G} {Q : Type} {PQ : PriorityQueue Q}.

(** The process the entry point builds: the reference time is one second. *)
Definition entry_process
    (mu_0 Mmin Mmax beta p c Mr offspring_fraction : R) : Process_M_t.t :=
  new_Process_M_t mu_0 1 c beta Mr p Mmin Mmax offspring_fraction.

(** The simulation after [k] calls of [next_event]. *)
Definition state_after (Mmin Mmax beta : R) (process : Process_M_t.t)
    (seed : Z) (k : nat) : sim_state G Q :=
  iterate (next_event Mmin Mmax beta process) k (initial_state process seed).

(** The states of the [N] events that follow [N_skip] warm-up events. *)
Definition catalog_states (Mmin Mmax beta : R) (process : Process_M_t.t)
    (seed : Z) (N_skip N : nat) : list (sim_state G Q) :=
  trajectory (next_event Mmin Mmax beta process) N
    (state_after Mmin Mmax beta process seed N_skip).

End RunVocabulary.

(** Two simulation states that differ at most in the engine, the engines
    being related. *)
Definition sim_related {G1 G2 Q : Type} (related : G1 -> G2 -> Prop)
    (s1 : sim_state G1 Q) (s2 : sim_state G2 Q) : Prop :=
  related (st_rng s1) (st_rng s2) /\
  st_t s1 = st_t s2 /\ st_M s1 = st_M s2 /\
  st_next_bg s1 = st_next_bg s2 /\
  st_descendants s1 = st_descendants s2.

(** Two engines that produce the same variates from [seed] on. *)
Definition same_stream {G1 G2 : Type} (RE1 : RandomEngine G1)
    (RE2 : RandomEngine G2) (seed : Z) : Prop :=
  exists related : G1 -> G2 -> Prop,
    related (rng_seed seed) (rng_seed seed) /\
    forall g1 g2, related g1 g2 ->
      fst (uniform g1) = fst (uniform g2) /\
      related (snd (uniform g1)) (snd (uniform g2)).

(** ** A reference queue and a reference engine *)

(** The queue as an unordered list, searched for the smallest [tnext]. *)
Fixpoint list_top (l : list excitement_t.t) : option excitement_t.t :=
  match l with
  | [] => None
  | e :: rest =>
      match list_top rest with
      | None => Some e
      | Some m =>
          if Rle_dec (excitement_t.tnext e) (excitement_t.tnext m)
          then Some e else Some m
      end
  end.

Fixpoint list_pop (l : list excitement_t.t) : list excitement_t.t :=
  match l with
  | [] => []
  | e :: rest =>
      match list_top rest with
      | None => []
      | Some m =>
          if Rle_dec (excitement_t.tnext e) (excitement_t.tnext m)
          then rest else e :: list_pop rest
      end
  end.

#[local] Instance list_queue : PriorityQueue (list excitement_t.t) := {
  pq_empty := [];
  pq_is_empty := fun l => match l with [] => true | _ :: _ => false end;
  pq_top := list_top;
  pq_pop := list_pop;
  pq_push := cons;
  pq_elements := fun l => l
}.

(** An engine that returns the same variate [exp (-1)] at every draw. *)
Definition steady_variate : R := exp (-1).

#[local] Instance steady_engine : RandomEngine unit := {
  rng_seed := fun _ => tt;
  uniform := fun g => (steady_variate, g)
}.

(** A process with unit parameters, for the worked instances. *)
Definition unit_process : Process_M_t.t :=
  Process_M_t.Build 1 1 1 1 0 2 (ln 2) 1.


(** ** Vocabulary of the further properties *)

Section Draws.

Context {G : Type} {RE : RandomEngine G}.

(** The engine after [k] draws. *)
Definition draws (k : nat) (g : G) : G :=
  iterate (fun g' => snd (uniform g')) k g.

(** The variates that the engine seeded with [seed] returns, counted from
    zero. *)
Definition variate (seed : Z) (k : nat) : R :=
  fst (uniform (draws k (rng_seed seed))).

End Draws.

(** The comparisons of the sanity checks over doubles with special values:
    every comparison with a NaN is false. *)
Module IEEE_checks.

Definition lt (x y : IEEE.double) : bool :=
  match x, y with
  | IEEE.nan, _ | _, IEEE.nan => false
  | IEEE.finite a, IEEE.finite b => if Rlt_dec a b then true else false
  | _, IEEE.neg_inf | IEEE.pos_inf, _ => false
  | _, _ => true
  end.

Definition ge (x y : IEEE.double) : bool := IEEE.le y x.

(** The sanity checks at the head of [ETAS_generate_catalog_M_t]. *)
Definition sanity (Mmin Mmax p offspring_fraction : IEEE.double)
    : option string :=
  if ge Mmin Mmax then Some "Mmin >= Mmax"%string
  else if IEEE.le p IEEE.one then Some "p <= 1"%string
  else if ge offspring_fraction IEEE.one
       then Some "Instable process (offspring ratio > 1)"%string
  else if lt offspring_fraction (IEEE.finite 0)
       then Some "Offspring ratio needs to be non-negative."%string
  else None.

End IEEE_checks.

(** A process with unit parameters and twice the rate constant of
    [unit_process]: its events have children under [steady_engine]. *)
Definition busy_process : Process_M_t.t :=
  Process_M_t.Build 1 1 1 1 0 2 (ln 2) 2.

(** An engine whose every variate is [exp (-1/4)]: under it the events of
    a call with half the critical offspring have children. *)
Definition eager_variate : R := exp (- (1 / 4)).

Definition eager_engine : RandomEngine unit := {|
  rng_seed := fun _ => tt;
  uniform := fun g => (eager_variate, g)
|}.
(** ** The code in binary64 arithmetic

    The same source functions with every operation rounded as the machine
    rounds it.  A [double] is a finite real, an infinity or NaN, as in
    module [IEEE]; a finite value is meant to be a representable one.  Each
    of [+], [-], [*], [/] returns the exact result rounded once to the
    nearest representable number, ties to even (IEEE 754 binary64, the
    default rounding mode), and the matching infinity on overflow.  [round]
    is defined by that specification.

    [std::exp], [std::log] and [std::pow] are not correctly rounded, and
    their code is in the C library: their results at ordinary arguments are
    the fields of class [Libm], on which nothing is assumed.  Their results
    at the special arguments are those of Annex F of the C standard.

    Every operation is rounded once, to binary64: no fused multiply-add
    and no extended precision.  As in module [IEEE] a zero has no sign.
    The sign of a zero shows only in the sign of an infinity obtained by
    dividing a non-zero number by it or by raising it to a negative odd
    power; no evaluation made below does either. *)

Module Binary64.

Abbreviation double := IEEE.double.
Abbreviation finite := IEEE.finite.
Abbreviation pos_inf := IEEE.pos_inf.
Abbreviation neg_inf := IEEE.neg_inf.
Abbreviation nan := IEEE.nan.

(** The finite doubles: [m * 2^e] with a 53-bit significand, the
    subnormal numbers included. *)
Definition representable (x : R) : Prop :=
  exists m e : Z,
    (Z.abs m < 2 ^ 53)%Z /\ (-1074 <= e <= 971)%Z /\ x = IZR m * powerRZ 2 e.

(** Half an ulp above the largest finite double: from here on a result
    rounds to an infinity. *)
Definition overflow_threshold : R := powerRZ 2 1024 - powerRZ 2 970.

(** [y] is a representable number nearest to [x]. *)
Definition nearest (x y : R) : Prop :=
  representable y /\
  forall z, representable z -> Rabs (y - x) <= Rabs (z - x).

(** [d] is [x] rounded to nearest, ties to even: of two nearest numbers,
    which are neighbours, the one that is an even multiple of their
    distance. *)
Definition rounds_to (x : R) (d : double) : Prop :=
  match d with
  | finite y =>
      Rabs x < overflow_threshold /\ nearest x y /\
      forall y', nearest x y' -> y' <> y ->
        exists k : Z, y = IZR (2 * k) * Rabs (y' - y)
  | pos_inf => overflow_threshold <= x
  | neg_inf => x <= - overflow_threshold
  | nan => False
  end.

Definition round (x : R) : double :=
  epsilon (inhabits nan) (rounds_to x).

Definition opp (x : double) : double := IEEE.opp x.

Definition add (x y : double) : double :=
  match x, y with
  | finite a, finite b => round (a + b)
  | _, _ => IEEE.add x y
  end.

Definition sub (x y : double) : double := add x (opp y).

Definition mul (x y : double) : double :=
  match x, y with
  | finite a, finite b => round (a * b)
  | _, _ => IEEE.mul x y
  end.

Definition div (x y : double) : double :=
  match x, y with
  | finite a, finite b =>
      if Req_dec_T b 0 then IEEE.scaled_infinity a else round (a / b)
  | _, _ => IEEE.div x y
  end.

Declare Scope binary64_scope.
Delimit Scope binary64_scope with B.

Notation "x + y" := (add x y) : binary64_scope.
Notation "x - y" := (sub x y) : binary64_scope.
Notation "x * y" := (mul x y) : binary64_scope.
Notation "x / y" := (div x y) : binary64_scope.
Notation "- x" := (opp x) : binary64_scope.

Definition one : double := finite 1.

(** [<=] and [<] on doubles: false as soon as an operand is NaN. *)
Definition le (x y : double) : bool := IEEE.le x y.
Definition lt (x y : double) : bool := IEEE_checks.lt x y.

(** The C library at ordinary arguments: [exp] away from zero, [log] of a
    positive number other than one, [pow] of a non-zero base other than one
    to a non-zero exponent (an integer one where the base is negative). *)
Class Libm : Type := {
  exp_finite : R -> double;
  log_finite : R -> double;
  pow_finite : R -> R -> double
}.

Section Library.

Context {L : Libm}.

(** [std::exp]. *)
Definition exp (x : double) : double :=
  match x with
  | finite r => if Req_dec_T r 0 then finite 1 else exp_finite r
  | pos_inf => pos_inf
  | neg_inf => finite 0
  | nan => nan
  end.

(** [std::log]. *)
Definition log (x : double) : double :=
  match x with
  | finite r =>
      IEEE.sign_case r nan neg_inf
        (if Req_dec_T r 1 then finite 0 else log_finite r)
  | pos_inf => pos_inf
  | neg_inf => nan
  | nan => nan
  end.

(** [std::pow]. *)
Definition pow (x y : double) : double :=
  match y with
  | finite b =>
      if Req_dec_T b 0 then finite 1
      else
        match x with
        | finite a =>
            if Req_dec_T a 1 then finite 1
            else
              IEEE.sign_case a
                (if IEEE.is_integer b then pow_finite a b else nan)
                (if Rlt_dec b 0 then pos_inf else finite 0)
                (pow_finite a b)
        | pos_inf => if Rlt_dec b 0 then finite 0 else pos_inf
        | neg_inf =>
            if Rlt_dec b 0 then finite 0
            else if IEEE.is_odd_integer b then neg_inf else pos_inf
        | nan => nan
        end
  | pos_inf =>
      match x with
      | finite a => IEEE.limit_power a (finite 0) (finite 1) pos_inf
      | pos_inf | neg_inf => pos_inf
      | nan => nan
      end
  | neg_inf =>
      match x with
      | finite a => IEEE.limit_power a pos_inf (finite 1) (finite 0)
      | pos_inf | neg_inf => finite 0
      | nan => nan
      end
  | nan =>
      match x with
      | finite a => if Req_dec_T a 1 then finite 1 else nan
      | _ => nan
      end
  end.

Local Open Scope binary64_scope.

(** [Process_M_t::critical_FK]. *)
Definition critical_FK (Mmin Mmax p c Tref beta Mr : double) : double :=
  (p - one) *
  exp (p * log (c / Tref)) / c
  * (one - exp (- beta * (Mmax - Mmin)))
  / (beta * exp (beta * (Mmin - Mr)) * (Mmax - Mmin)).

(** The constructor [Process_M_t::Process_M_t]. *)
Definition new_Process_M_t
    (mu_0 Tref c beta Mr p Mmin Mmax offspring_fraction : double)
    : IEEE.Process_M_t :=
  IEEE.Build mu_0 Tref c beta Mr p (log p)
    (critical_FK Mmin Mmax p c Tref beta Mr * offspring_fraction).

Definition f (M : double) (process : IEEE.Process_M_t) : double :=
  exp (IEEE.beta process * (M - IEEE.Mr process)).

Definition Lambda_i_oo (ti tl Mi : double) (process : IEEE.Process_M_t)
    : double :=
  let _1mp := one - IEEE.p process in
  - f Mi process * IEEE.Tref process * IEEE.FK process / _1mp *
  pow ((tl - ti + IEEE.c process) / IEEE.Tref process) _1mp.

Definition next_single_occurrence (q ti Mi tl : double)
    (process : IEEE.Process_M_t) : option double :=
  if le q (exp (- Lambda_i_oo ti tl Mi process)) then None
  else
    let _1mp := one - IEEE.p process in
    Some (ti - IEEE.c process + IEEE.Tref process * exp (
      one / _1mp * log (
        pow ((tl - ti + IEEE.c process) / IEEE.Tref process) _1mp
        - _1mp / (f Mi process * IEEE.FK process * IEEE.Tref process)
          * log q))).

Definition next_background_occurrence (q tl : double)
    (process : IEEE.Process_M_t) : double :=
  tl - log q / IEEE.mu_0 process.

Definition draw_magnitude (q Mmin Mmax beta : double) : double :=
  Mmin - log (one - q * (one - exp (- beta * (Mmax - Mmin)))) / beta.

(** The process the entry point builds: the reference time is one second. *)
Definition entry_process
    (mu_0 Mmin Mmax beta p c Mr offspring_fraction : double)
    : IEEE.Process_M_t :=
  new_Process_M_t mu_0 one c beta Mr p Mmin Mmax offspring_fraction.

End Library.

(** A stream of descendants (struct [excitement_t]) with its times as the
    code holds them. *)
Record excitement_t : Type := Build_excitement_t {
  ti : double;
  M : double;
  tnext : double
}.

(** [operator>] and [operator<] of [excitement_t], comparisons of doubles:
    [tnext < other.tnext] and [tnext > other.tnext]. *)
Definition excitement_gt (a other : excitement_t) : bool :=
  lt (tnext a) (tnext other).
Definition excitement_lt (a other : excitement_t) : bool :=
  lt (tnext other) (tnext a).

(** [std::priority_queue<excitement_t>], by its interface. *)
Class PriorityQueue (Q : Type) : Type := {
  pq_empty : Q;
  pq_is_empty : Q -> bool;
  pq_top : Q -> option excitement_t;
  pq_pop : Q -> Q;
  pq_push : excitement_t -> Q -> Q;
  pq_elements : Q -> list excitement_t
}.

(** What the queue does whatever the keys are, NaN among them: [top] is
    one of its elements, [pop] removes it, [push] adds one element. *)
Record PriorityQueueLaws {Q : Type} (PQ : PriorityQueue Q) : Prop := {
  pq_empty_elements : pq_elements pq_empty = [];
  pq_is_empty_spec : forall q, pq_is_empty q = true <-> pq_elements q = [];
  pq_top_none : forall q, pq_top q = None <-> pq_elements q = [];
  pq_top_spec : forall q e, pq_top q = Some e -> In e (pq_elements q);
  pq_pop_spec : forall q e, pq_top q = Some e ->
    Permutation (pq_elements q) (e :: pq_elements (pq_pop q));
  pq_push_spec : forall q e,
    Permutation (pq_elements (pq_push e q)) (e :: pq_elements q)
}.

(** [std::mt19937_64 rng(seed)] with
    [std::uniform_real_distribution<double> uniform(0.0, 1.0)]. *)
Class RandomEngine (G : Type) : Type := {
  rng_seed : Z -> G;
  uniform : G -> double * G
}.

(** The code of the generator is in the C++ standard library and not in
    this repository: the engine is a parameter.  This is the range that the
    C++ standard gives [std::uniform_real_distribution<double>(0.0, 1.0)]:
    a finite number [x] with [0 <= x < 1]. *)
Definition uniform_range {G : Type} (RE : RandomEngine G) : Prop :=
  forall g : G, exists r : R, fst (uniform g) = finite r /\ 0 <= r < 1.

Section Simulation.

Context {L : Libm} {G : Type} {RE : RandomEngine G}
        {Q : Type} {PQ : PriorityQueue Q}.

(** What the closure [next_event] captures by reference. *)
Record sim_state : Type := Build_sim_state {
  st_rng : G;
  st_t : double;
  st_M : double;
  st_next_bg : double;
  st_descendants : Q
}.

(** [descendants.empty() || next_bg < descendants.top().tnext] *)
Definition takes_background (s : sim_state) : bool :=
  pq_is_empty (st_descendants s) ||
  match pq_top (st_descendants s) with
  | Some top => lt (st_next_bg s) (tnext top)
  | None => true
  end.

Definition background_event (process : IEEE.Process_M_t) (s : sim_state)
    : sim_state :=
  let t := st_next_bg s in
  let q := fst (uniform (st_rng s)) in
  Build_sim_state (snd (uniform (st_rng s))) t (st_M s)
    (next_background_occurrence q t process)
    (st_descendants s).

Definition descendant_event (process : IEEE.Process_M_t)
    (event : excitement_t) (s : sim_state) : sim_state :=
  let popped := pq_pop (st_descendants s) in
  let t := tnext event in
  let q := fst (uniform (st_rng s)) in
  let descendants :=
    match next_single_occurrence q (ti event) (M event) t process with
    | Some tn => pq_push (Build_excitement_t (ti event) (M event) tn) popped
    | None => popped
    end in
  Build_sim_state (snd (uniform (st_rng s))) t (st_M s) (st_next_bg s)
    descendants.

Definition next_time (process : IEEE.Process_M_t) (s : sim_state)
    : sim_state :=
  if takes_background s then background_event process s
  else
    match pq_top (st_descendants s) with
    | Some event => descendant_event process event s
    | None => background_event process s
    end.

Definition mark_and_trigger (Mmin Mmax beta : double)
    (process : IEEE.Process_M_t) (s : sim_state) : sim_state :=
  let M := draw_magnitude (fst (uniform (st_rng s))) Mmin Mmax beta in
  let g := snd (uniform (st_rng s)) in
  let q := fst (uniform g) in
  let t := st_t s in
  let descendants :=
    match next_single_occurrence q t M t process with
    | Some tn => pq_push (Build_excitement_t t M tn) (st_descendants s)
    | None => st_descendants s
    end in
  Build_sim_state (snd (uniform g)) t M (st_next_bg s) descendants.

(** The closure [next_event]. *)
Definition next_event (Mmin Mmax beta : double) (process : IEEE.Process_M_t)
    (s : sim_state) : sim_state :=
  mark_and_trigger Mmin Mmax beta process (next_time process s).

(** The state when the loops start. *)
Definition initial_state (process : IEEE.Process_M_t) (seed : Z)
    : sim_state :=
  let g := rng_seed seed in
  let t := finite 0 in
  Build_sim_state (snd (uniform g)) t nan
    (next_background_occurrence (fst (uniform g)) t process)
    pq_empty.

(** The simulation after [k] calls of [next_event]. *)
Definition state_after (Mmin Mmax beta : double) (process : IEEE.Process_M_t)
    (seed : Z) (k : nat) : sim_state :=
  iterate (next_event Mmin Mmax beta process) k (initial_state process seed).

End Simulation.

Arguments sim_state G Q : clear implicits.

(** A queue kept as a list, the top at its head when the keys are ordered:
    a stream is pushed before the first stream it is strictly earlier
    than. *)
Fixpoint list_push (e : excitement_t) (l : list excitement_t)
    : list excitement_t :=
  match l with
  | [] => [e]
  | x :: rest => if lt (tnext e) (tnext x) then e :: l
                 else x :: list_push e rest
  end.

#[local] Instance list_queue : PriorityQueue (list excitement_t) := {
  pq_empty := [];
  pq_is_empty l := match l with [] => true | _ => false end;
  pq_top l := List.hd_error l;
  pq_pop l := List.tl l;
  pq_push := list_push;
  pq_elements l := l
}.

(** An engine whose every variate is [q]. *)
Definition constant_engine (q : R) : RandomEngine unit := {|
  rng_seed := fun _ => tt;
  uniform := fun g => (finite q, g)
|}.

(** The C library with every function correctly rounded. *)
#[local] Instance rounded_libm : Libm := {
  exp_finite r := round (Rtrigo_def.exp r);
  log_finite r := round (ln r);
  pow_finite a b :=
    round (if Rlt_dec a 0 then powerRZ a (Int_part b) else Rpower a b)
}.

End Binary64.
(** ** Small evaluations of the model *)

Example size_wrap_past_the_modulus : size_wrap (size_modulus + 5) = 5%Z.
Proof. reflexivity. Qed.

Example while_lt_counts_to_the_bound :
  while_lt S 3 0 O = (3%Z, 3%nat).
Proof. reflexivity. Qed.

Example while_lt_past_the_bound :
  while_lt S 3 7 O = (7%Z, O).
Proof. reflexivity. Qed.

Example write_at_second_slot : write_at 1 5 [1; 2; 3] = [1; 5; 3].
Proof. reflexivity. Qed.

Example write_at_past_the_end : write_at 3 5 [1; 2; 3] = [1; 2; 3].
Proof. reflexivity. Qed.

Example sanity_rejects_empty_range :
  sanity 1 1 2 0 = Some "Mmin >= Mmax"%string.
Proof.
  unfold sanity. destruct (Rge_dec 1 1) as [_ | H]; [reflexivity | lra].
Qed.

Example sanity_rejects_critical_fraction :
  sanity 0 1 2 1 = Some "Instable process (offspring ratio > 1)"%string.
Proof.
  unfold sanity.
  destruct (Rge_dec 0 1); [lra|]. destruct (Rle_dec 2 1); [lra|].
  destruct (Rge_dec 1 1) as [_ | H]; [reflexivity | lra].
Qed.

Example zero_times_infinity :
  IEEE.mul (IEEE.finite 0) IEEE.pos_inf = IEEE.nan.
Proof.
  cbn. unfold IEEE.scaled_infinity, IEEE.sign_case.
  destruct (total_order_T 0 0) as [[H | _] | H]; try lra. reflexivity.
Qed.

Example nothing_is_below_nan :
  IEEE.le (IEEE.finite 0) IEEE.nan = false.
Proof. reflexivity. Qed.

(** ** Elementary facts on [exp], [ln] and [Rpower] *)

Lemma ln_neg (q : R) : 0 < q < 1 -> ln q < 0.
Proof.
  intros [H0 H1]. rewrite <- ln_1. now apply ln_increasing.
Qed.

Lemma Rpower_pos (x y : R) : 0 < Rpower x y.
Proof. apply exp_pos. Qed.

Lemma one_minus_exp_pos (x : R) : 0 < x -> 0 < 1 - exp (- x) < 1.
Proof.
  intros Hx. pose proof (exp_pos (- x)).
  assert (exp (- x) < exp 0) by (apply exp_increasing; lra).
  rewrite exp_0 in *. lra.
Qed.

(** ** Doubles with special values *)

Lemma sign_case_zero {A : Type} (r : R) (n z p : A) :
  r = 0 -> IEEE.sign_case r n z p = z.
Proof.
  intros Hr. unfold IEEE.sign_case.
  destruct (total_order_T r 0) as [[H | H] | H]; try reflexivity; lra.
Qed.

Lemma sign_case_positive {A : Type} (r : R) (n z p : A) :
  0 < r -> IEEE.sign_case r n z p = p.
Proof.
  intros Hr. unfold IEEE.sign_case.
  destruct (total_order_T r 0) as [[H | H] | H]; try reflexivity; lra.
Qed.

(** NaN is absorbing, and no number is below or above it. *)
Lemma sub_nan_r (x : IEEE.double) : IEEE.sub x IEEE.nan = IEEE.nan.
Proof. now destruct x. Qed.

Lemma mul_nan_r (x : IEEE.double) : IEEE.mul x IEEE.nan = IEEE.nan.
Proof. now destruct x. Qed.

Lemma le_nan_r (x : IEEE.double) : IEEE.le x IEEE.nan = false.
Proof. now destruct x. Qed.

(** ** The descendant sampler *)

Section DescendantSampler.

Variable process : Process_M_t.t.
Hypothesis p_gt_1 : 1 < Process_M_t.p process.
Hypothesis c_pos : 0 < Process_M_t.c process.
Hypothesis Tref_pos : 0 < Process_M_t.Tref process.

(** The source's [Lambda_i_oo] is the tail integral of the specification. *)
Lemma Lambda_i_oo_tail (ti tl Mi : R) :
  Lambda_i_oo ti tl Mi process = Lambda_tail ti tl Mi process.
Proof.
  unfold Lambda_i_oo, Lambda_tail. cbv zeta. field. split; lra.
Qed.

Lemma next_single_occurrence_none_iff (q ti Mi tl : R) :
  next_single_occurrence q ti Mi tl process = None <->
  q <= exp (- Lambda_i_oo ti tl Mi process).
Proof.
  unfold next_single_occurrence.
  destruct (Rle_dec q (exp (- Lambda_i_oo ti tl Mi process))) as [Hle | Hnle].
  - tauto.
  - split; [discriminate | contradiction].
Qed.

Lemma next_single_occurrence_some (q ti Mi tl : R) :
  ~ q <= exp (- Lambda_i_oo ti tl Mi process) ->
  next_single_occurrence q ti Mi tl process =
  Some (t_next_inverse q ti Mi tl process).
Proof.
  intros Hnle. unfold next_single_occurrence, t_next_inverse.
  destruct (Rle_dec q (exp (- Lambda_i_oo ti tl Mi process))); [contradiction|].
  reflexivity.
Qed.

(** The argument of the outer logarithm lies strictly between zero and the
    power it is subtracted from. *)
Lemma inverse_argument_bounds (q ti Mi tl : R) :
  0 < Process_M_t.FK process ->
  0 < q < 1 ->
  ~ q <= exp (- Lambda_i_oo ti tl Mi process) ->
  let B := (tl - ti + Process_M_t.c process) / Process_M_t.Tref process in
  let A := Rpower B (1 - Process_M_t.p process) in
  let arg := A - (1 - Process_M_t.p process)
                 / (f Mi process * Process_M_t.FK process * Process_M_t.Tref process)
                 * ln q in
  0 < arg < A.
Proof.
  intros HFK Hq Hnle B A arg.
  assert (HF : 0 < f Mi process) by apply exp_pos.
  assert (HA : 0 < A) by apply Rpower_pos.
  set (D := f Mi process * Process_M_t.FK process * Process_M_t.Tref process) in *.
  assert (HD : 0 < D).
  { unfold D. apply Rmult_lt_0_compat; [apply Rmult_lt_0_compat|]; assumption. }
  set (m := Process_M_t.p process - 1).
  assert (Hm : 0 < m) by (unfold m; lra).
  assert (Hln : ln q < 0) by now apply ln_neg.
  assert (HL : Lambda_i_oo ti tl Mi process = D / m * A).
  { rewrite Lambda_i_oo_tail. unfold Lambda_tail, D, m. fold B. fold A.
    field. unfold m in Hm. lra. }
  assert (Hgt : - (D / m * A) < ln q).
  { apply exp_lt_inv. rewrite exp_ln by tauto. rewrite <- HL. lra. }
  assert (Harg : arg = A + m / D * ln q).
  { unfold arg, m. field. lra. }
  rewrite Harg.
  assert (Hmd : 0 < m / D) by (apply Rdiv_lt_0_compat; assumption).
  split.
  - assert (m / D * (- (D / m * A)) < m / D * ln q)
      by (apply Rmult_lt_compat_l; assumption).
    replace (m / D * (- (D / m * A))) with (- A) in H by (field; lra).
    lra.
  - assert (m / D * ln q < 0).
    { replace 0 with (m / D * 0) by ring. apply Rmult_lt_compat_l; assumption. }
    lra.
Qed.

(** A child, when there is one, comes strictly after [tl]. *)
Lemma t_next_inverse_after (q ti Mi tl : R) :
  0 < Process_M_t.FK process ->
  ti <= tl ->
  0 < q < 1 ->
  ~ q <= exp (- Lambda_i_oo ti tl Mi process) ->
  tl < t_next_inverse q ti Mi tl process.
Proof.
  intros HFK Htl Hq Hnle.
  pose proof (inverse_argument_bounds q ti Mi tl HFK Hq Hnle) as Hb.
  cbv zeta in Hb. unfold t_next_inverse.
  set (B := (tl - ti + Process_M_t.c process) / Process_M_t.Tref process) in *.
  set (A := Rpower B (1 - Process_M_t.p process)) in *.
  set (arg := A - (1 - Process_M_t.p process)
                 / (f Mi process * Process_M_t.FK process * Process_M_t.Tref process)
                 * ln q) in *.
  assert (HB : 0 < B).
  { unfold B. apply Rdiv_lt_0_compat; lra. }
  assert (HlnA : ln A = (1 - Process_M_t.p process) * ln B).
  { unfold A, Rpower. apply ln_exp. }
  assert (Hlt : ln arg < ln A) by (apply ln_increasing; tauto).
  set (m := Process_M_t.p process - 1) in *.
  assert (Hm : 0 < m) by (unfold m; lra).
  assert (Hexp : B < exp (1 / (1 - Process_M_t.p process) * ln arg)).
  { rewrite <- (exp_ln B) at 1 by assumption.
    apply exp_increasing.
    replace (1 / (1 - Process_M_t.p process) * ln arg) with (- (ln arg / m))
      by (unfold m; field; unfold m in Hm; lra).
    replace (ln B) with (- (ln A / m)).
    2:{ rewrite HlnA. unfold m. field. unfold m in Hm. lra. }
    apply Ropp_lt_contravar.
    unfold Rdiv. apply Rmult_lt_compat_r; [now apply Rinv_0_lt_compat | assumption]. }
  assert (Process_M_t.Tref process * B
          < Process_M_t.Tref process * exp (1 / (1 - Process_M_t.p process) * ln arg))
    by (apply Rmult_lt_compat_l; assumption).
  replace (Process_M_t.Tref process * B) with (tl - ti + Process_M_t.c process) in H
    by (unfold B; field; lra).
  lra.
Qed.

End DescendantSampler.

(** ** The stationarity bound *)

Lemma sanity_none (Mmin Mmax p offspring_fraction : R) :
  sanity Mmin Mmax p offspring_fraction = None <->
  Mmin < Mmax /\ 1 < p /\ 0 <= offspring_fraction < 1.
Proof.
  unfold sanity.
  destruct (Rge_dec Mmin Mmax); [split; [discriminate | lra]|].
  destruct (Rle_dec p 1); [split; [discriminate | lra]|].
  destruct (Rge_dec offspring_fraction 1); [split; [discriminate | lra]|].
  destruct (Rlt_dec offspring_fraction 0); [split; [discriminate | lra]|].
  split; [lra | reflexivity].
Qed.

(** The magnitude average [(1 - e^(-beta D)) / (beta D)] is positive for
    every non-zero [beta]. *)
Lemma magnitude_average_pos (beta D e : R) :
  beta <> 0 -> 0 < D -> 0 < e ->
  0 < (1 - exp (- beta * D)) / (beta * e * D).
Proof.
  intros Hb HD He.
  destruct (Rtotal_order beta 0) as [Hneg | [Hz | Hpos]]; [| contradiction |].
  - assert (HbD : 0 < - (beta * D)) by nra.
    assert (exp 0 < exp (- beta * D)) by (apply exp_increasing; lra).
    rewrite exp_0 in H.
    replace ((1 - exp (- beta * D)) / (beta * e * D))
      with ((exp (- beta * D) - 1) / (- beta * e * D)).
    2:{ field. repeat split; lra. }
    apply Rdiv_lt_0_compat; [lra|]. 
    apply Rmult_lt_0_compat; [apply Rmult_lt_0_compat|]; lra.
  - assert (HbD : 0 < beta * D) by (apply Rmult_lt_0_compat; lra).
    pose proof (one_minus_exp_pos (beta * D) HbD) as [HW _].
    replace (- beta * D) with (- (beta * D)) by ring.
    apply Rdiv_lt_0_compat; [assumption|].
    apply Rmult_lt_0_compat; [apply Rmult_lt_0_compat|]; lra.
Qed.

Lemma critical_FK_pos (Mmin Mmax p c Tref beta Mr : R) :
  Mmin < Mmax -> 1 < p -> 0 < c -> beta <> 0 ->
  0 < critical_FK Mmin Mmax p c Tref beta Mr.
Proof.
  intros HM Hp Hc Hb. unfold critical_FK.
  pose proof (exp_pos (p * ln (c / Tref))) as HE.
  pose proof (exp_pos (beta * (Mmin - Mr))) as He.
  assert (HD : 0 < Mmax - Mmin) by lra.
  pose proof (magnitude_average_pos beta (Mmax - Mmin) _ Hb HD He) as Havg.
  replace ((p - 1) * exp (p * ln (c / Tref)) / c
           * (1 - exp (- beta * (Mmax - Mmin)))
           / (beta * exp (beta * (Mmin - Mr)) * (Mmax - Mmin)))
    with ((p - 1) * (exp (p * ln (c / Tref)) / c)
          * ((1 - exp (- beta * (Mmax - Mmin)))
             / (beta * exp (beta * (Mmin - Mr)) * (Mmax - Mmin)))).
  2:{ field. repeat split; lra. }
  apply Rmult_lt_0_compat; [apply Rmult_lt_0_compat|]; try lra.
  now apply Rdiv_lt_0_compat.
Qed.

(** [exp (p * ln (c / Tref)) / c] is [c^(p-1) / Tref^p]. *)
Lemma omori_scale (p c Tref : R) :
  0 < c -> 0 < Tref ->
  exp (p * ln (c / Tref)) / c = Rpower c (p - 1) / Rpower Tref p.
Proof.
  intros Hc HT. unfold Rpower, Rdiv.
  rewrite ln_mult by (try apply Rinv_0_lt_compat; assumption).
  rewrite ln_Rinv by assumption.
  rewrite <- (exp_ln c) at 2 by assumption.
  rewrite <- !exp_Ropp, <- !exp_plus. f_equal. ring.
Qed.

(** ** The magnitude sampler *)

Section MagnitudeSampler.

Variables Mmin Mmax beta : R.
Hypothesis beta_pos : 0 < beta.
Hypothesis M_range : Mmin < Mmax.

Local Abbreviation E := (truncation_weight Mmin Mmax beta).

Lemma truncation_mass : 0 < E < 1.
Proof.
  unfold truncation_weight. replace (- beta * (Mmax - Mmin)) with (- (beta * (Mmax - Mmin))) by ring.
  apply one_minus_exp_pos. apply Rmult_lt_0_compat; lra.
Qed.

(** The argument of the logarithm, for a variate of the unit interval. *)
Lemma survival_bounds (q : R) :
  0 < q < 1 -> exp (- beta * (Mmax - Mmin)) < 1 - q * E < 1.
Proof.
  intros Hq. pose proof truncation_mass as HE.
  assert (0 < q * E) by (apply Rmult_lt_0_compat; lra).
  assert (q * E < 1 * E) by (apply Rmult_lt_compat_r; lra).
  unfold truncation_weight in *. lra.
Qed.

Lemma draw_magnitude_range (q : R) :
  0 < q < 1 -> Mmin < draw_magnitude q Mmin Mmax beta < Mmax.
Proof.
  intros Hq. pose proof (survival_bounds q Hq) as [Hlo Hhi]. fold E in Hlo.
  pose proof (exp_pos (- beta * (Mmax - Mmin))) as Hpos.
  unfold draw_magnitude. fold E.
  assert (Hl1 : ln (1 - q * E) < 0).
  { rewrite <- ln_1. apply ln_increasing; lra. }
  assert (Hl2 : - beta * (Mmax - Mmin) < ln (1 - q * E)).
  { rewrite <- (ln_exp (- beta * (Mmax - Mmin))). apply ln_increasing; assumption. }
  assert (Hinv : 0 < / beta) by now apply Rinv_0_lt_compat.
  unfold Rdiv. split.
  - assert (ln (1 - q * E) * / beta < 0 * / beta)
      by (apply Rmult_lt_compat_r; assumption).
    lra.
  - assert (- beta * (Mmax - Mmin) * / beta < ln (1 - q * E) * / beta)
      by (apply Rmult_lt_compat_r; assumption).
    replace (- beta * (Mmax - Mmin) * / beta) with (- (Mmax - Mmin)) in H
      by (field; lra).
    lra.
Qed.

Lemma draw_magnitude_increasing (q1 q2 : R) :
  0 < q1 < 1 -> 0 < q2 < 1 -> q1 < q2 ->
  draw_magnitude q1 Mmin Mmax beta < draw_magnitude q2 Mmin Mmax beta.
Proof.
  intros H1 H2 Hlt. pose proof truncation_mass as HE.
  pose proof (survival_bounds q2 H2) as [Hlo _]. fold E in Hlo.
  pose proof (exp_pos (- beta * (Mmax - Mmin))) as Hpos.
  unfold draw_magnitude. fold E.
  assert (q1 * E < q2 * E) by (apply Rmult_lt_compat_r; lra).
  assert (ln (1 - q2 * E) < ln (1 - q1 * E)) by (apply ln_increasing; lra).
  assert (Hinv : 0 < / beta) by now apply Rinv_0_lt_compat.
  assert (ln (1 - q2 * E) * / beta < ln (1 - q1 * E) * / beta)
    by (apply Rmult_lt_compat_r; assumption).
  unfold Rdiv. lra.
Qed.

Lemma draw_magnitude_limit_0 :
  limit1_in (fun q => draw_magnitude q Mmin Mmax beta)
            (fun q => 0 < q < 1) Mmin 0.
Proof.
  pose proof truncation_mass as HE.
  intros eps Heps.
  assert (Hd : 0 < 1 - exp (- (beta * eps))).
  { apply one_minus_exp_pos. apply Rmult_lt_0_compat; lra. }
  exists ((1 - exp (- (beta * eps))) / E). split.
  - apply Rdiv_lt_0_compat; lra.
  - intros q [Hq Hdist]. simpl in *. unfold R_dist in *.
    rewrite Rminus_0_r, Rabs_right in Hdist by lra.
    pose proof (draw_magnitude_range q Hq) as [Hlo _].
    rewrite Rabs_right by lra.
    assert (Hqe : q * E < 1 - exp (- (beta * eps))).
    { apply (Rmult_lt_compat_r E) in Hdist; [|lra].
      replace ((1 - exp (- (beta * eps))) / E * E)
        with (1 - exp (- (beta * eps))) in Hdist by (field; lra).
      exact Hdist. }
    pose proof (exp_pos (- (beta * eps))) as Hpos.
    assert (Hln : - (beta * eps) < ln (1 - q * E)).
    { rewrite <- (ln_exp (- (beta * eps))). apply ln_increasing; lra. }
    unfold draw_magnitude. fold E.
    assert (Hinv : 0 < / beta) by now apply Rinv_0_lt_compat.
    assert (- (beta * eps) * / beta < ln (1 - q * E) * / beta)
      by (apply Rmult_lt_compat_r; assumption).
    replace (- (beta * eps) * / beta) with (- eps) in H by (field; lra).
    unfold Rdiv. lra.
Qed.

Lemma draw_magnitude_limit_1 :
  limit1_in (fun q => draw_magnitude q Mmin Mmax beta)
            (fun q => 0 < q < 1) Mmax 1.
Proof.
  pose proof truncation_mass as HE.
  intros eps Heps.
  set (D := Mmax - Mmin).
  pose proof (exp_pos (- beta * D)) as HexpD.
  assert (Hgrow : 1 < exp (beta * eps)).
  { rewrite <- exp_0. apply exp_increasing. apply Rmult_lt_0_compat; lra. }
  exists (exp (- beta * D) * (exp (beta * eps) - 1) / E). split.
  - apply Rdiv_lt_0_compat; [|lra]. apply Rmult_lt_0_compat; lra.
  - intros q [Hq Hdist]. simpl in *. unfold R_dist in *.
    rewrite Rabs_left in Hdist by lra.
    pose proof (draw_magnitude_range q Hq) as [_ Hhi].
    rewrite Rabs_left by lra.
    pose proof (survival_bounds q Hq) as [Hlo _]. fold E D in Hlo.
    assert (Hqe : 1 - q * E < exp (- beta * D) * exp (beta * eps)).
    { apply (Rmult_lt_compat_r E) in Hdist; [|lra].
      replace (exp (- beta * D) * (exp (beta * eps) - 1) / E * E)
        with (exp (- beta * D) * (exp (beta * eps) - 1)) in Hdist by (field; lra).
      assert (HEdef : E = 1 - exp (- beta * D)) by reflexivity.
      lra. }
    rewrite <- exp_plus in Hqe.
    assert (Hln : ln (1 - q * E) < - beta * D + beta * eps).
    { rewrite <- (ln_exp (- beta * D + beta * eps)). apply ln_increasing; lra. }
    unfold draw_magnitude. fold E.
    assert (Hinv : 0 < / beta) by now apply Rinv_0_lt_compat.
    assert (ln (1 - q * E) * / beta < (- beta * D + beta * eps) * / beta)
      by (apply Rmult_lt_compat_r; assumption).
    replace ((- beta * D + beta * eps) * / beta) with (eps - D) in H
      by (field; lra).
    unfold Rdiv, D in *. lra.
Qed.

End MagnitudeSampler.


(** ** Counting loops over [size_t] *)

Section WhileFacts.

Context {A : Type} (body : A -> A).

Lemma size_wrap_small (z : Z) :
  (0 <= z < size_modulus)%Z -> size_wrap z = z.
Proof. intros Hz. unfold size_wrap. now apply Z.mod_small. Qed.

Lemma while_lt_fuel_exact (k : nat) (bound n : Z) (a : A) :
  (0 <= n)%Z -> (n + Z.of_nat k = bound)%Z -> (bound < size_modulus)%Z ->
  while_lt_fuel body k bound n a = (bound, iterate body k a).
Proof.
  revert n a. induction k as [|k IH]; intros n a Hn Hk Hb.
  - simpl. f_equal. lia.
  - cbn [while_lt_fuel iterate].
    destruct (Z.ltb_spec n bound) as [Hlt | Hge]; [|lia].
    rewrite size_wrap_small by lia.
    apply IH; lia.
Qed.

(** A loop whose counter starts below the bound runs [bound - n] rounds. *)
Lemma while_lt_run (bound n : Z) (a : A) :
  (0 <= n <= bound)%Z -> (bound < size_modulus)%Z ->
  while_lt body bound n a = (bound, iterate body (Z.to_nat (bound - n)) a).
Proof.
  intros Hn Hb. unfold while_lt. apply while_lt_fuel_exact; lia.
Qed.

(** A loop whose counter starts at or past the bound runs no round. *)
Lemma while_lt_skip (bound n : Z) (a : A) :
  (bound <= n)%Z -> while_lt body bound n a = (n, a).
Proof.
  intros Hn. unfold while_lt.
  replace (Z.to_nat (bound - n)) with O by lia. reflexivity.
Qed.

(** [while_lt] is the loop: it satisfies the unfolding equation of
    [while (n < bound) { body; ++n; }]. *)
Lemma while_lt_unfold (bound n : Z) (a : A) :
  (0 <= n)%Z -> (bound < size_modulus)%Z ->
  while_lt body bound n a =
  if (n <? bound)%Z then while_lt body bound (size_wrap (n + 1)) (body a)
  else (n, a).
Proof.
  intros Hn Hb. destruct (Z.ltb_spec n bound) as [Hlt | Hge].
  - rewrite size_wrap_small by lia.
    rewrite !while_lt_run by lia.
    replace (Z.to_nat (bound - n)) with (S (Z.to_nat (bound - (n + 1)))) by lia.
    reflexivity.
  - now apply while_lt_skip.
Qed.

Lemma iterate_plus (j k : nat) (a : A) :
  iterate body (j + k) a = iterate body k (iterate body j a).
Proof.
  revert a. induction j as [|j IH]; intros a; [reflexivity|]. simpl. apply IH.
Qed.

Lemma iterate_succ (k : nat) (a : A) :
  iterate body (S k) a = body (iterate body k a).
Proof.
  replace (S k) with (k + 1)%nat by lia. apply iterate_plus.
Qed.

Lemma trajectory_length (k : nat) (a : A) :
  List.length (trajectory body k a) = k.
Proof.
  revert a. induction k as [|k IH]; intros a; simpl; [|rewrite IH]; reflexivity.
Qed.

Lemma trajectory_nth (k i : nat) (a d : A) :
  (i < k)%nat -> nth i (trajectory body k a) d = iterate body (S i) a.
Proof.
  revert i a. induction k as [|k IH]; intros i a Hi; [lia|].
  destruct i as [|i]; [reflexivity|]. simpl. apply IH. lia.
Qed.

End WhileFacts.

Lemma write_at_middle (done_ todo : list R) (x v : R) :
  write_at (List.length done_) v (done_ ++ x :: todo) = done_ ++ v :: todo.
Proof.
  induction done_ as [|y done_ IH]; simpl; [reflexivity|]. now rewrite IH.
Qed.


(** ** The driver *)

Section Driver.

Context {G : Type} {RE : RandomEngine G} {Q : Type} {PQ : PriorityQueue Q}.
Variables Mmin Mmax beta : R.
Variable process : Process_M_t.t.

Local Abbreviation step := (next_event Mmin Mmax beta process).
Local Abbreviation emit := (emit_event Mmin Mmax beta process).

Lemma emit_event_unfold (s : sim_state G Q) (buf_M buf_t : list R) (pos : nat) :
  emit (Build_out_state s buf_M buf_t pos)
  = Build_out_state (step s) (write_at pos (st_M (step s)) buf_M)
      (write_at pos (st_t (step s)) buf_t) (S pos).
Proof. reflexivity. Qed.

(** [k] rounds of the second loop fill the next [k] slots of both buffers
    with the magnitudes and times of the next [k] events. *)
Lemma emit_iterate (k : nat) : forall (s : sim_state G Q)
    (done_M done_t todo_M todo_t : list R),
  List.length done_M = List.length done_t ->
  (k <= List.length todo_M)%nat -> (k <= List.length todo_t)%nat ->
  iterate emit k
    (Build_out_state s (done_M ++ todo_M) (done_t ++ todo_t) (List.length done_M))
  = Build_out_state (iterate step k s)
      (done_M ++ map st_M (trajectory step k s) ++ skipn k todo_M)
      (done_t ++ map st_t (trajectory step k s) ++ skipn k todo_t)
      (List.length done_M + k).
Proof.
  induction k as [|k IH]; intros s done_M done_t todo_M todo_t Hlen HM Ht.
  - simpl. now rewrite Nat.add_0_r.
  - destruct todo_M as [|m todo_M]; [simpl in HM; lia|].
    destruct todo_t as [|x todo_t]; [simpl in Ht; lia|].
    simpl in HM, Ht.
    cbn [iterate trajectory map skipn].
    rewrite emit_event_unfold.
    rewrite write_at_middle.
    replace (write_at (List.length done_M) (st_t (step s)) (done_t ++ x :: todo_t))
      with (done_t ++ st_t (step s) :: todo_t)
      by (rewrite Hlen; symmetry; apply write_at_middle).
    replace (done_M ++ st_M (step s) :: todo_M)
      with ((done_M ++ [st_M (step s)]) ++ todo_M)
      by (rewrite <- app_assoc; reflexivity).
    replace (done_t ++ st_t (step s) :: todo_t)
      with ((done_t ++ [st_t (step s)]) ++ todo_t)
      by (rewrite <- app_assoc; reflexivity).
    replace (S (List.length done_M))
      with (List.length (done_M ++ [st_M (step s)]))
      by (rewrite length_app; simpl; lia).
    rewrite IH by (rewrite ?length_app; simpl; lia).
    rewrite <- !app_assoc. cbn [app].
    f_equal. rewrite length_app. simpl. lia.
Qed.

End Driver.

Section EntryPoint.

Context {G : Type} {RE : RandomEngine G} {Q : Type} {PQ : PriorityQueue Q}.
Variables mu_0 Mmin Mmax beta p c Mr offspring_fraction : R.
Variables N_skip seed : Z.
Variables Mi ti : list R.

Local Abbreviation process :=
  (entry_process mu_0 Mmin Mmax beta p c Mr offspring_fraction).
Local Abbreviation call :=
  (ETAS_generate_catalog_M_t (G := G) (Q := Q) mu_0 Mmin Mmax beta p c Mr
     offspring_fraction N_skip seed Mi ti).

(** A failed sanity check throws, whatever the buffers are. *)
Lemma ETAS_throws_sanity (what : string) :
  sanity Mmin Mmax p offspring_fraction = Some what -> call = inl what.
Proof.
  intros Hs. unfold ETAS_generate_catalog_M_t. now rewrite Hs.
Qed.

(** Buffers of different sizes throw. *)
Lemma ETAS_throws_size :
  sanity Mmin Mmax p offspring_fraction = None ->
  List.length ti <> List.length Mi ->
  call = inl "Size of M and t not compatible"%string.
Proof.
  intros Hs Hlen. unfold ETAS_generate_catalog_M_t. rewrite Hs.
  destruct (Z.eqb_spec (Z.of_nat (List.length ti)) (Z.of_nat (List.length Mi)));
    [lia | reflexivity].
Qed.

(** Without wrap-around of [N + N_skip] the call fills both buffers with
    the [N] events that follow the warm-up. *)
Lemma ETAS_fills_buffers :
  sanity Mmin Mmax p offspring_fraction = None ->
  List.length ti = List.length Mi ->
  (0 <= N_skip)%Z ->
  (Z.of_nat (List.length Mi) + N_skip < size_modulus)%Z ->
  call = inr
    (map st_M (catalog_states (G := G) (Q := Q) Mmin Mmax beta process seed
                 (Z.to_nat N_skip) (List.length Mi)),
     map st_t (catalog_states (G := G) (Q := Q) Mmin Mmax beta process seed
                 (Z.to_nat N_skip) (List.length Mi))).
Proof.
  intros Hs Hlen Hskip Hsum. unfold ETAS_generate_catalog_M_t. rewrite Hs.
  rewrite Hlen, Z.eqb_refl. cbn [negb]. cbv zeta.
  rewrite (while_lt_run _ N_skip 0) by lia. cbn [fst snd].
  rewrite size_wrap_small by lia.
  rewrite while_lt_run by lia. cbn [fst snd].
  replace (Z.to_nat (Z.of_nat (List.length Mi) + N_skip - N_skip))
    with (List.length Mi) by lia.
  rewrite Z.sub_0_r.
  pose proof (emit_iterate Mmin Mmax beta process (List.length Mi)
                (iterate (next_event Mmin Mmax beta process) (Z.to_nat N_skip)
                   (initial_state process seed))
                [] [] Mi ti eq_refl (le_n _)) as He.
  cbn [app List.length] in He. unfold catalog_states, state_after, entry_process in *.
  rewrite He by lia.
  cbn [out_M out_t].
  rewrite skipn_all. rewrite <- Hlen at 3. rewrite skipn_all.
  rewrite !app_nil_r. reflexivity.
Qed.

(** When [N + N_skip] wraps around, the second loop never runs and both
    buffers come back as they were passed. *)
Lemma ETAS_wraps_around :
  sanity Mmin Mmax p offspring_fraction = None ->
  List.length ti = List.length Mi ->
  (0 <= N_skip < size_modulus)%Z ->
  (Z.of_nat (List.length Mi) < size_modulus)%Z ->
  (size_modulus <= Z.of_nat (List.length Mi) + N_skip)%Z ->
  call = inr (Mi, ti).
Proof.
  intros Hs Hlen Hskip HN Hsum. unfold ETAS_generate_catalog_M_t. rewrite Hs.
  rewrite Hlen, Z.eqb_refl. cbn [negb]. cbv zeta.
  rewrite (while_lt_run _ N_skip 0) by lia. cbn [fst snd].
  rewrite while_lt_skip; [reflexivity|].
  unfold size_wrap.
  assert (Hm : ((Z.of_nat (List.length Mi) + N_skip) mod size_modulus
                = Z.of_nat (List.length Mi) + N_skip - size_modulus)%Z).
  { symmetry. apply Z.mod_unique with (q := 1%Z); lia. }
  rewrite Hm. lia.
Qed.

End EntryPoint.

(** ** All or nothing *)

(** The five errors carry five different messages. *)
Lemma error_messages_distinct :
  NoDup ["Mmin >= Mmax"; "p <= 1"; "Instable process (offspring ratio > 1)";
         "Offspring ratio needs to be non-negative.";
         "Size of M and t not compatible"]%string.
Proof.
  repeat constructor; cbn; intuition discriminate.
Qed.

(** Which sanity check fails first, and with which message. *)
Lemma sanity_some (Mmin Mmax p offspring_fraction : R) :
  (Mmin >= Mmax ->
   sanity Mmin Mmax p offspring_fraction = Some "Mmin >= Mmax"%string) /\
  (Mmin < Mmax -> p <= 1 ->
   sanity Mmin Mmax p offspring_fraction = Some "p <= 1"%string) /\
  (Mmin < Mmax -> 1 < p -> offspring_fraction >= 1 ->
   sanity Mmin Mmax p offspring_fraction
     = Some "Instable process (offspring ratio > 1)"%string) /\
  (Mmin < Mmax -> 1 < p -> offspring_fraction < 0 ->
   sanity Mmin Mmax p offspring_fraction
     = Some "Offspring ratio needs to be non-negative."%string) /\
  (Mmin >= Mmax \/ p <= 1 \/ offspring_fraction >= 1 \/ offspring_fraction < 0 ->
   exists what, sanity Mmin Mmax p offspring_fraction = Some what).
Proof.
  unfold sanity.
  destruct (Rge_dec Mmin Mmax); [repeat split; intros; try lra; eauto|].
  destruct (Rle_dec p 1); [repeat split; intros; try lra; eauto|].
  destruct (Rge_dec offspring_fraction 1);
    [repeat split; intros; try lra; eauto|].
  destruct (Rlt_dec offspring_fraction 0);
    [repeat split; intros; try lra; eauto|].
  repeat split; intros; lra.
Qed.

(** As long as [N + N_skip] does not wrap around, a call is all or
    nothing: a violated precondition throws and returns no buffer;
    otherwise both buffers are filled with exactly [N] events. *)
Theorem ETAS_all_or_nothing
    {G : Type} {RE : RandomEngine G} {Q : Type} {PQ : PriorityQueue Q}
    (mu_0 Mmin Mmax beta p c Mr offspring_fraction : R) (N_skip seed : Z)
    (Mi ti : list R) :
  (0 <= N_skip)%Z ->
  (Z.of_nat (List.length Mi) + N_skip < size_modulus)%Z ->
  let call := ETAS_generate_catalog_M_t (G := G) (Q := Q) mu_0 Mmin Mmax beta
                p c Mr offspring_fraction N_skip seed Mi ti in
  (Mmin >= Mmax \/ p <= 1 \/ offspring_fraction >= 1 \/ offspring_fraction < 0
   \/ List.length ti <> List.length Mi ->
   exists what, call = inl what) /\
  (~ (Mmin >= Mmax \/ p <= 1 \/ offspring_fraction >= 1 \/ offspring_fraction < 0
      \/ List.length ti <> List.length Mi) ->
   exists Mi' ti', call = inr (Mi', ti') /\
     List.length Mi' = List.length Mi /\ List.length ti' = List.length Mi /\
     Mi' = map st_M (catalog_states (G := G) (Q := Q) Mmin Mmax beta
                       (entry_process mu_0 Mmin Mmax beta p c Mr offspring_fraction)
                       seed (Z.to_nat N_skip) (List.length Mi)) /\
     ti' = map st_t (catalog_states (G := G) (Q := Q) Mmin Mmax beta
                       (entry_process mu_0 Mmin Mmax beta p c Mr offspring_fraction)
                       seed (Z.to_nat N_skip) (List.length Mi))).
Proof.
  intros Hskip Hfit call. unfold call. split.
  - intros Hbad.
    destruct (sanity Mmin Mmax p offspring_fraction) as [what|] eqn:Hs.
    + exists what. now apply ETAS_throws_sanity.
    + apply sanity_none in Hs as Hok. destruct Hbad as [H|[H|[H|[H|H]]]]; try lra.
      eexists. now apply ETAS_throws_size.
  - intros Hgood.
    assert (Hs : sanity Mmin Mmax p offspring_fraction = None)
      by (apply sanity_none; lra).
    assert (Hlen : List.length ti = List.length Mi) by lia.
    rewrite (ETAS_fills_buffers _ _ _ _ _ _ _ _ _ _ _ _ Hs Hlen Hskip Hfit).
    eexists. eexists. split; [reflexivity|].
    unfold catalog_states. rewrite !length_map, !trajectory_length.
    repeat split.
Qed.

(** C1, the failing input.  With one slot in each buffer and the largest
    warm-up count, all sanity checks pass, [N + N_skip] wraps around to
    zero, and the call returns with both buffers untouched: no pair is
    written where [N = 1] pairs are due. *)
Theorem largest_skip_writes_nothing
    {G : Type} {RE : RandomEngine G} {Q : Type} {PQ : PriorityQueue Q}
    (seed : Z) (m0 t0 : R) :
  sanity 0 1 2 0 = None /\
  size_wrap (Z.of_nat (List.length [m0]) + (size_modulus - 1)) = 0%Z /\
  ETAS_generate_catalog_M_t (G := G) (Q := Q) 1 0 1 1 2 1 0 0
    (size_modulus - 1) seed [m0] [t0] = inr ([m0], [t0]).
Proof.
  assert (Hs : sanity 0 1 2 0 = None) by (apply sanity_none; lra).
  assert (Hpos : (1 < size_modulus)%Z) by (unfold size_modulus; lia).
  split; [exact Hs|]. split.
  - unfold size_wrap. cbn [List.length Z.of_nat Pos.of_succ_nat].
    replace (1 + (size_modulus - 1))%Z with (1 * size_modulus)%Z by ring.
    apply Z.mod_mul. lia.
  - apply ETAS_wraps_around; try assumption; try reflexivity;
      cbn [List.length Z.of_nat Pos.of_succ_nat]; lia.
Qed.

(** ** The event schedule *)

(** With a zero rate constant no child is ever drawn. *)
Lemma next_single_occurrence_FK_zero (process : Process_M_t.t) (q ti Mi tl : R) :
  Process_M_t.FK process = 0 -> q <= 1 ->
  next_single_occurrence q ti Mi tl process = None.
Proof.
  intros HFK Hq. unfold next_single_occurrence.
  assert (HL : Lambda_i_oo ti tl Mi process = 0).
  { unfold Lambda_i_oo. cbv zeta. rewrite HFK. unfold Rdiv. ring. }
  rewrite HL, Ropp_0, exp_0.
  destruct (Rle_dec q 1); [reflexivity | contradiction].
Qed.

Lemma background_after (process : Process_M_t.t) (q tl : R) :
  0 < Process_M_t.mu_0 process -> 0 < q < 1 ->
  tl < next_background_occurrence q tl process.
Proof.
  intros Hmu Hq. unfold next_background_occurrence.
  pose proof (ln_neg q Hq) as Hln.
  assert (Hinv : 0 < / Process_M_t.mu_0 process) by now apply Rinv_0_lt_compat.
  assert (ln q * / Process_M_t.mu_0 process < 0 * / Process_M_t.mu_0 process)
    by (apply Rmult_lt_compat_r; assumption).
  unfold Rdiv. lra.
Qed.

Section Schedule.

Context {G : Type} {RE : RandomEngine G} {Q : Type} {PQ : PriorityQueue Q}.
Hypothesis laws : PriorityQueueLaws PQ.

Variables Mmin Mmax beta : R.
Variable process : Process_M_t.t.

Local Abbreviation step := (next_event (G := G) (Q := Q) Mmin Mmax beta process).

(** *** Which branch is taken *)

Lemma takes_background_iff (s : sim_state G Q) :
  takes_background s = true <->
  pq_elements (st_descendants s) = [] \/
  exists top, pq_top (st_descendants s) = Some top /\
              st_next_bg s < excitement_t.tnext top.
Proof.
  unfold takes_background.
  destruct (pq_is_empty (st_descendants s)) eqn:Hemp.
  - apply (pq_is_empty_spec PQ laws) in Hemp. cbn [orb]. tauto.
  - cbn [orb].
    assert (Hne : pq_elements (st_descendants s) <> []).
    { intros H0. apply (pq_is_empty_spec PQ laws) in H0. congruence. }
    destruct (pq_top (st_descendants s)) as [top|] eqn:Htop.
    + destruct (Rlt_dec (st_next_bg s) (excitement_t.tnext top)) as [Hlt | Hnlt].
      * split; [|reflexivity]. intros _. right. now exists top.
      * split; [discriminate|]. intros [H0 | (top' & Heq & Hlt)];
          [contradiction|]. injection Heq as <-. contradiction.
    + apply (pq_top_none PQ laws) in Htop. contradiction.
Qed.

Lemma next_time_background (s : sim_state G Q) :
  takes_background s = true ->
  next_time process s = background_event process s.
Proof. intros H. unfold next_time. now rewrite H. Qed.

Lemma next_time_descendant (s : sim_state G Q) :
  takes_background s = false ->
  exists top, pq_top (st_descendants s) = Some top /\
              ~ st_next_bg s < excitement_t.tnext top /\
              next_time process s = descendant_event process top s.
Proof.
  intros H. unfold next_time. rewrite H.
  unfold takes_background in H. apply Bool.orb_false_iff in H as [_ H].
  destruct (pq_top (st_descendants s)) as [top|]; [|discriminate].
  exists top. repeat split.
  now destruct (Rlt_dec (st_next_bg s) (excitement_t.tnext top)).
Qed.

(** *** The invariant *)

Hypothesis variates : uniform_open RE.
Hypothesis p_gt_1 : 1 < Process_M_t.p process.
Hypothesis c_pos : 0 < Process_M_t.c process.
Hypothesis Tref_pos : 0 < Process_M_t.Tref process.
Hypothesis FK_nonneg : 0 <= Process_M_t.FK process.
Hypothesis mu_pos : 0 < Process_M_t.mu_0 process.

(** A child comes strictly after the time it is drawn at. *)
Lemma child_after (q ti Mi tl tn : R) :
  ti <= tl -> 0 < q < 1 ->
  next_single_occurrence q ti Mi tl process = Some tn -> tl < tn.
Proof.
  intros Htl Hq Hsome.
  destruct FK_nonneg as [HFK | HFK].
  - destruct (Rle_dec q (exp (- Lambda_i_oo ti tl Mi process))) as [Hle | Hnle].
    + apply next_single_occurrence_none_iff in Hle. congruence.
    + rewrite (next_single_occurrence_some process q ti Mi tl Hnle) in Hsome.
      injection Hsome as <-. now apply t_next_inverse_after.
  - rewrite next_single_occurrence_FK_zero in Hsome by (auto; lra).
    discriminate.
Qed.

Lemma initial_invariant (seed : Z) :
  schedule_invariant (initial_state (G := G) (Q := Q) process seed).
Proof.
  unfold schedule_invariant, initial_state. cbn.
  rewrite (pq_empty_elements PQ laws). split; [|constructor].
  left. apply background_after; [assumption | apply variates].
Qed.

Lemma next_time_invariant (s : sim_state G Q) :
  schedule_invariant s ->
  st_t s <= st_t (next_time process s) /\
  schedule_invariant (next_time process s).
Proof.
  intros [Hbg Hq].
  destruct (takes_background s) eqn:Hb.
  - rewrite (next_time_background s Hb).
    unfold background_event, schedule_invariant. cbn.
    split; [assumption|]. split.
    + left. apply background_after; [assumption | apply variates].
    + apply takes_background_iff in Hb as [Hnil | (top & Htop & Hlt)].
      * rewrite Hnil. constructor.
      * destruct (pq_top_spec PQ laws _ _ Htop) as [_ Hmin].
        rewrite Forall_forall in Hq |- *. intros x Hx.
        specialize (Hq x Hx). specialize (Hmin x Hx).
        unfold excitement_t.lt in Hmin. split; [tauto | lra].
  - destruct (next_time_descendant s Hb) as (top & Htop & Hnlt & ->).
    destruct (pq_top_spec PQ laws _ _ Htop) as [Hin Hmin].
    pose proof (pq_pop_spec PQ laws _ _ Htop) as Hperm.
    rewrite Forall_forall in Hq.
    destruct (Hq top Hin) as [Hanc Hcur].
    unfold descendant_event, schedule_invariant. cbn.
    split; [assumption|]. split; [lra|].
    assert (Hrest : Forall
              (fun e => excitement_t.ti e <= excitement_t.tnext e /\
                        excitement_t.tnext top <= excitement_t.tnext e)
              (pq_elements (pq_pop (st_descendants s)))).
    { rewrite Forall_forall. intros x Hx.
      assert (Hx' : In x (pq_elements (st_descendants s))).
      { eapply Permutation_in; [symmetry; exact Hperm | now right]. }
      specialize (Hq x Hx'). specialize (Hmin x Hx').
      unfold excitement_t.lt in Hmin. split; [tauto | lra]. }
    destruct (next_single_occurrence (fst (uniform (st_rng s)))
                (excitement_t.ti top) (excitement_t.M top)
                (excitement_t.tnext top) process) as [tn|] eqn:Hnext;
      [|exact Hrest].
    apply child_after in Hnext; [|assumption | apply variates].
    eapply Permutation_Forall;
      [symmetry; apply (pq_push_spec PQ laws)|].
    constructor; [cbn; lra | exact Hrest].
Qed.

Lemma mark_and_trigger_invariant (s : sim_state G Q) :
  schedule_invariant s ->
  st_t (mark_and_trigger Mmin Mmax beta process s) = st_t s /\
  schedule_invariant (mark_and_trigger Mmin Mmax beta process s).
Proof.
  intros [Hbg Hq]. unfold mark_and_trigger, schedule_invariant. cbn.
  split; [reflexivity|]. split; [assumption|].
  match goal with
  | |- context [next_single_occurrence ?q ?a ?m ?b process] =>
      destruct (next_single_occurrence q a m b process) as [tn|] eqn:Hnext
  end; [|exact Hq].
  apply child_after in Hnext; [|lra | apply variates].
  eapply Permutation_Forall; [symmetry; apply (pq_push_spec PQ laws)|].
  constructor; [cbn; lra | exact Hq].
Qed.

(** One call of [next_event] moves time forward and keeps the invariant. *)
Lemma next_event_invariant (s : sim_state G Q) :
  schedule_invariant s ->
  st_t s <= st_t (step s) /\ schedule_invariant (step s).
Proof.
  intros Hinv. unfold next_event.
  destruct (next_time_invariant s Hinv) as [Hle Hinv1].
  destruct (mark_and_trigger_invariant _ Hinv1) as [Heq Hinv2].
  rewrite Heq. tauto.
Qed.

Lemma iterate_invariant (k : nat) (s : sim_state G Q) :
  schedule_invariant s -> schedule_invariant (iterate step k s).
Proof.
  revert s. induction k as [|k IH]; intros s Hinv; [exact Hinv|].
  simpl. apply IH. now apply next_event_invariant.
Qed.

(** The times of consecutive events never decrease. *)
Lemma trajectory_monotone (k i : nat) (s : sim_state G Q) :
  schedule_invariant s -> (S i < k)%nat ->
  nth i (map st_t (trajectory step k s)) 0
  <= nth (S i) (map st_t (trajectory step k s)) 0.
Proof.
  intros Hinv Hi.
  rewrite !(nth_indep _ 0 (st_t s)) by (rewrite length_map, trajectory_length; lia).
  rewrite !map_nth, !trajectory_nth by lia.
  rewrite (iterate_succ _ (S i)).
  apply next_event_invariant. now apply iterate_invariant.
Qed.

End Schedule.

(** ** The reference queue and the reference engine meet their contracts *)

Lemma list_top_none (l : list excitement_t.t) : list_top l = None <-> l = [].
Proof.
  destruct l as [|e rest]; [tauto|]. cbn.
  destruct (list_top rest) as [m|];
    [destruct (Rle_dec (excitement_t.tnext e) (excitement_t.tnext m))|];
    split; discriminate.
Qed.

Lemma list_top_minimal (l : list excitement_t.t) (e : excitement_t.t) :
  list_top l = Some e ->
  In e l /\ forall x, In x l -> excitement_t.tnext e <= excitement_t.tnext x.
Proof.
  revert e. induction l as [|a rest IH]; intros e Htop; [discriminate|].
  cbn in Htop. destruct (list_top rest) as [m|] eqn:Hrest.
  - destruct (IH m eq_refl) as [Hin Hmin].
    destruct (Rle_dec (excitement_t.tnext a) (excitement_t.tnext m)) as [Hle | Hnle];
      injection Htop as <-.
    + split; [now left|]. intros x [<- | Hx]; [lra|].
      specialize (Hmin x Hx). lra.
    + split; [now right|]. intros x [<- | Hx]; [lra | now apply Hmin].
  - injection Htop as <-. apply list_top_none in Hrest. subst rest.
    split; [now left|]. intros x [<- | []]. lra.
Qed.

Lemma list_pop_permutation (l : list excitement_t.t) (e : excitement_t.t) :
  list_top l = Some e -> Permutation l (e :: list_pop l).
Proof.
  revert e. induction l as [|a rest IH]; intros e Htop; [discriminate|].
  cbn in Htop |- *. destruct (list_top rest) as [m|] eqn:Hrest.
  - destruct (Rle_dec (excitement_t.tnext a) (excitement_t.tnext m));
      injection Htop as <-; [reflexivity|].
    etransitivity; [apply perm_skip, (IH m eq_refl) | apply perm_swap].
  - injection Htop as <-. apply list_top_none in Hrest. subst rest. reflexivity.
Qed.

Lemma list_queue_laws : PriorityQueueLaws list_queue.
Proof.
  constructor; cbn.
  - reflexivity.
  - intros [|e rest]; split; try reflexivity; discriminate.
  - apply list_top_none.
  - intros q e Htop. destruct (list_top_minimal q e Htop) as [Hin Hmin].
    split; [assumption|]. intros x Hx. specialize (Hmin x Hx).
    unfold excitement_t.lt. lra.
  - apply list_pop_permutation.
  - reflexivity.
Qed.

Lemma steady_variate_open : 0 < steady_variate < 1.
Proof.
  unfold steady_variate. split; [apply exp_pos|].
  rewrite <- exp_0. apply exp_increasing. lra.
Qed.

Lemma steady_engine_open : uniform_open steady_engine.
Proof. intros g. apply steady_variate_open. Qed.

Lemma steady_engine_same_stream (seed : Z) :
  same_stream steady_engine steady_engine seed.
Proof.
  exists (fun _ _ => True). split; [exact I|]. intros g1 g2 _. now split.
Qed.

(** ** Ties between the background and the queue *)

(** C10.  The background branch of [next_event] is taken exactly when the
    queue of descendants is empty or [next_bg] is strictly smaller than the
    [tnext] of the queue's top.  When [next_bg] equals that [tnext], the
    descendant is emitted: the top is popped, the event time is its
    [tnext], and the background candidate stays pending. *)
Theorem tie_emits_descendant
    {G : Type} {RE : RandomEngine G} {Q : Type} {PQ : PriorityQueue Q}
    (Mmin Mmax beta : R) (process : Process_M_t.t) (s : sim_state G Q) :
  PriorityQueueLaws PQ ->
  (takes_background s = true <->
   pq_elements (st_descendants s) = [] \/
   exists top, pq_top (st_descendants s) = Some top /\
               st_next_bg s < excitement_t.tnext top) /\
  (takes_background s = true ->
   next_time process s = background_event process s) /\
  (forall top, pq_top (st_descendants s) = Some top ->
     st_next_bg s = excitement_t.tnext top ->
     takes_background s = false /\
     next_time process s = descendant_event process top s /\
     st_t (next_event Mmin Mmax beta process s) = excitement_t.tnext top /\
     st_next_bg (next_event Mmin Mmax beta process s) = st_next_bg s /\
     Permutation (pq_elements (st_descendants s))
                 (top :: pq_elements (pq_pop (st_descendants s)))).
Proof.
  intros laws. split; [apply (takes_background_iff laws)|].
  split; [apply next_time_background|].
  intros top Htop Htie.
  assert (Hb : takes_background s = false).
  { destruct (takes_background s) eqn:Hb; [|reflexivity].
    apply (takes_background_iff laws) in Hb as [Hnil | (top' & Htop' & Hlt)].
    - apply (pq_top_none PQ laws) in Hnil. congruence.
    - rewrite Htop in Htop'. injection Htop' as <-. lra. }
  split; [exact Hb|].
  destruct (next_time_descendant process s Hb) as (top' & Htop' & _ & Hnext).
  rewrite Htop in Htop'. injection Htop' as <-.
  split; [exact Hnext|]. unfold next_event. rewrite Hnext.
  repeat split. now apply (pq_pop_spec PQ laws).
Qed.

Lemma tie_emits_descendant_witness :
  PriorityQueueLaws list_queue /\
  let s := Build_sim_state (G := unit) tt 0 0 1 [excitement_t.Build 0 0 1] in
  (takes_background s = true <->
   pq_elements (st_descendants s) = [] \/
   exists top, pq_top (st_descendants s) = Some top /\
               st_next_bg s < excitement_t.tnext top) /\
  (takes_background s = true ->
   next_time unit_process s = background_event unit_process s) /\
  (forall top, pq_top (st_descendants s) = Some top ->
     st_next_bg s = excitement_t.tnext top ->
     takes_background s = false /\
     next_time unit_process s = descendant_event unit_process top s /\
     st_t (next_event 0 1 1 unit_process s) = excitement_t.tnext top /\
     st_next_bg (next_event 0 1 1 unit_process s) = st_next_bg s /\
     Permutation (pq_elements (st_descendants s))
                 (top :: pq_elements (pq_pop (st_descendants s)))).
Proof.
  split; [exact list_queue_laws|].
  exact (tie_emits_descendant (RE := steady_engine) (PQ := list_queue)
           0 1 1 unit_process
           (Build_sim_state (G := unit) tt 0 0 1 [excitement_t.Build 0 0 1])
           list_queue_laws).
Defined.

(** ** Determinism *)

Section TwoEngines.

Context {G1 G2 : Type} (RE1 : RandomEngine G1) (RE2 : RandomEngine G2).
Context {Q : Type} {PQ : PriorityQueue Q}.
Variable related : G1 -> G2 -> Prop.
Hypothesis related_draw : forall g1 g2, related g1 g2 ->
  fst (uniform g1) = fst (uniform g2) /\
  related (snd (uniform g1)) (snd (uniform g2)).

Variables Mmin Mmax beta : R.
Variable process : Process_M_t.t.

Local Abbreviation step1 :=
  (next_event (RE := RE1) (Q := Q) Mmin Mmax beta process).
Local Abbreviation step2 :=
  (next_event (RE := RE2) (Q := Q) Mmin Mmax beta process).

Lemma next_time_related (s1 : sim_state G1 Q) (s2 : sim_state G2 Q) :
  sim_related related s1 s2 ->
  sim_related related (next_time process s1) (next_time process s2).
Proof.
  destruct s1 as [g1 t1 M1 b1 d1], s2 as [g2 t2 M2 b2 d2].
  intros (Hr & Ht & HM & Hb & Hd). cbn in Hr, Ht, HM, Hb, Hd. subst.
  destruct (related_draw g1 g2 Hr) as [Hq Hr'].
  unfold next_time, takes_background. cbn [st_descendants st_next_bg].
  destruct (pq_is_empty d2 ||
            match pq_top d2 with
            | Some top =>
                if Rlt_dec b2 (excitement_t.tnext top) then true else false
            | None => true
            end)%bool.
  - unfold background_event, sim_related. cbn. rewrite Hq. tauto.
  - destruct (pq_top d2) as [event|].
    + unfold descendant_event, sim_related. cbn. rewrite Hq. tauto.
    + unfold background_event, sim_related. cbn. rewrite Hq. tauto.
Qed.

Lemma mark_and_trigger_related (s1 : sim_state G1 Q) (s2 : sim_state G2 Q) :
  sim_related related s1 s2 ->
  sim_related related (mark_and_trigger Mmin Mmax beta process s1)
                      (mark_and_trigger Mmin Mmax beta process s2).
Proof.
  destruct s1 as [g1 t1 M1 b1 d1], s2 as [g2 t2 M2 b2 d2].
  intros (Hr & Ht & HM & Hb & Hd). cbn in Hr, Ht, HM, Hb, Hd. subst.
  destruct (related_draw g1 g2 Hr) as [Hq Hr'].
  destruct (related_draw _ _ Hr') as [Hq' Hr''].
  unfold mark_and_trigger, sim_related. cbn. rewrite Hq, Hq'. tauto.
Qed.

Lemma next_event_related (s1 : sim_state G1 Q) (s2 : sim_state G2 Q) :
  sim_related related s1 s2 -> sim_related related (step1 s1) (step2 s2).
Proof.
  intros H. unfold next_event.
  now apply mark_and_trigger_related, next_time_related.
Qed.

Lemma iterate_related (k : nat) (s1 : sim_state G1 Q) (s2 : sim_state G2 Q) :
  sim_related related s1 s2 ->
  sim_related related (iterate step1 k s1) (iterate step2 k s2).
Proof.
  revert s1 s2. induction k as [|k IH]; intros s1 s2 H; [exact H|].
  simpl. now apply IH, next_event_related.
Qed.

Lemma trajectory_related (k : nat) (s1 : sim_state G1 Q) (s2 : sim_state G2 Q) :
  sim_related related s1 s2 ->
  map st_M (trajectory step1 k s1) = map st_M (trajectory step2 k s2) /\
  map st_t (trajectory step1 k s1) = map st_t (trajectory step2 k s2).
Proof.
  revert s1 s2. induction k as [|k IH]; intros s1 s2 H; [now split|].
  pose proof (next_event_related s1 s2 H) as H'.
  destruct (IH _ _ H') as [IHM IHt].
  destruct H' as (_ & Ht & HM & _).
  cbn [trajectory map]. rewrite IHM, IHt, Ht, HM. now split.
Qed.

Lemma initial_related (seed : Z) :
  related (rng_seed seed) (rng_seed seed) ->
  sim_related related (initial_state (RE := RE1) (Q := Q) process seed)
                      (initial_state (RE := RE2) (Q := Q) process seed).
Proof.
  intros Hr. destruct (related_draw _ _ Hr) as [Hq Hr'].
  unfold initial_state, sim_related. cbn. rewrite Hq. tauto.
Qed.

End TwoEngines.

Lemma overlay_all (written buf : list R) :
  List.length written = List.length buf -> overlay written buf = written.
Proof.
  intros Hlen. unfold overlay. rewrite Hlen, skipn_all. apply app_nil_r.
Qed.

(** C7.  Two calls with the same parameters, warm-up count, seed and buffer
    sizes, on engines that produce the same variates from the seed on,
    either throw the same error or write the same magnitudes and the same
    times over their buffers; with the same buffers their results are
    equal, and so are they whenever [N + N_skip] does not wrap around. *)
Theorem catalog_deterministic
    {G1 G2 : Type} (RE1 : RandomEngine G1) (RE2 : RandomEngine G2)
    {Q : Type} {PQ : PriorityQueue Q}
    (mu_0 Mmin Mmax beta p c Mr offspring_fraction : R) (N_skip seed : Z)
    (Mi1 ti1 Mi2 ti2 : list R) :
  same_stream RE1 RE2 seed ->
  List.length Mi1 = List.length Mi2 -> List.length ti1 = List.length ti2 ->
  (0 <= N_skip < size_modulus)%Z ->
  (Z.of_nat (List.length Mi1) < size_modulus)%Z ->
  let call1 := ETAS_generate_catalog_M_t (RE := RE1) (Q := Q) mu_0 Mmin Mmax
                 beta p c Mr offspring_fraction N_skip seed Mi1 ti1 in
  let call2 := ETAS_generate_catalog_M_t (RE := RE2) (Q := Q) mu_0 Mmin Mmax
                 beta p c Mr offspring_fraction N_skip seed Mi2 ti2 in
  ((exists what, call1 = inl what /\ call2 = inl what) \/
   (exists written_M written_t : list R,
      List.length written_M = List.length written_t /\
      call1 = inr (overlay written_M Mi1, overlay written_t ti1) /\
      call2 = inr (overlay written_M Mi2, overlay written_t ti2))) /\
  (Mi1 = Mi2 -> ti1 = ti2 -> call1 = call2) /\
  ((Z.of_nat (List.length Mi1) + N_skip < size_modulus)%Z -> call1 = call2).
Proof.
  intros (related & Hseed & Hdraw) HlenM Hlent Hskip HN call1 call2.
  assert (Hmain :
    (exists what, call1 = inl what /\ call2 = inl what) \/
    (exists written_M written_t : list R,
       List.length written_M = List.length written_t /\
       (List.length written_M = List.length Mi1 \/ written_M = []) /\
       (List.length written_t = List.length ti1 \/ written_t = []) /\
       ((Z.of_nat (List.length Mi1) + N_skip < size_modulus)%Z ->
        List.length written_M = List.length Mi1 /\
        List.length written_t = List.length ti1) /\
       call1 = inr (overlay written_M Mi1, overlay written_t ti1) /\
       call2 = inr (overlay written_M Mi2, overlay written_t ti2))).
  { unfold call1, call2.
    destruct (sanity Mmin Mmax p offspring_fraction) as [what|] eqn:Hs.
    { left. exists what. split; now apply ETAS_throws_sanity. }
    destruct (Nat.eq_dec (List.length ti1) (List.length Mi1)) as [Hlen | Hlen].
    2:{ left. eexists. split; apply ETAS_throws_size; try assumption. lia. }
    assert (Hlen2 : List.length ti2 = List.length Mi2) by lia.
    right.
    destruct (Z_lt_ge_dec (Z.of_nat (List.length Mi1) + N_skip) size_modulus)
      as [Hfit | Hwrap].
    - rewrite (ETAS_fills_buffers (RE := RE1)) by (try assumption; lia).
      rewrite (ETAS_fills_buffers (RE := RE2)) by (try assumption; lia).
      set (process := entry_process mu_0 Mmin Mmax beta p c Mr offspring_fraction).
      pose proof (initial_related RE1 RE2 related Hdraw process seed Hseed)
        as Hinit.
      pose proof (iterate_related RE1 RE2 related Hdraw Mmin Mmax beta process
                    (Z.to_nat N_skip) _ _ Hinit) as Hwarm.
      destruct (trajectory_related RE1 RE2 related Hdraw Mmin Mmax beta process
                  (List.length Mi1) _ _ Hwarm) as [HM Ht].
      unfold catalog_states, state_after. rewrite <- HlenM.
      rewrite <- HM, <- Ht.
      set (states := trajectory _ (List.length Mi1) _).
      assert (HlM : List.length (map st_M states) = List.length Mi1)
        by (unfold states; now rewrite length_map, trajectory_length).
      assert (Hlt : List.length (map st_t states) = List.length Mi1)
        by (unfold states; now rewrite length_map, trajectory_length).
      exists (map st_M states), (map st_t states).
      rewrite !overlay_all by lia.
      repeat split; first [lia | left; lia | reflexivity].
    - rewrite (ETAS_wraps_around (RE := RE1)) by (try assumption; lia).
      rewrite (ETAS_wraps_around (RE := RE2)) by (try assumption; lia).
      exists [], []. repeat split; first [now right | lia | reflexivity]. }
  split; [|split].
  - destruct Hmain as [Hthrow | (wM & wt & Hl & _ & _ & _ & H1 & H2)];
      [now left | right]. now exists wM, wt.
  - intros -> ->.
    destruct Hmain as [(what & -> & ->) | (wM & wt & _ & _ & _ & _ & -> & ->)];
      reflexivity.
  - intros Hfit.
    destruct Hmain as [(what & -> & ->) | (wM & wt & _ & _ & _ & Hall & -> & ->)];
      [reflexivity|].
    destruct (Hall Hfit) as [HM Ht].
    rewrite !overlay_all by lia. reflexivity.
Qed.

Lemma catalog_deterministic_witness :
  (same_stream steady_engine steady_engine 42 /\
   List.length [0; 0] = List.length [1; 1] /\
   List.length [0; 0] = List.length [1; 1] /\
   (0 <= 3 < size_modulus)%Z /\
   (Z.of_nat (List.length [0; 0]) < size_modulus)%Z) /\
  let call1 := ETAS_generate_catalog_M_t (RE := steady_engine) (PQ := list_queue)
                 1 0 1 1 2 1 0 (1/2) 3 42 [0; 0] [0; 0] in
  let call2 := ETAS_generate_catalog_M_t (RE := steady_engine) (PQ := list_queue)
                 1 0 1 1 2 1 0 (1/2) 3 42 [1; 1] [1; 1] in
  ((exists what, call1 = inl what /\ call2 = inl what) \/
   (exists written_M written_t : list R,
      List.length written_M = List.length written_t /\
      call1 = inr (overlay written_M [0; 0], overlay written_t [0; 0]) /\
      call2 = inr (overlay written_M [1; 1], overlay written_t [1; 1]))) /\
  ([0; 0] = [1; 1] -> [0; 0] = [1; 1] -> call1 = call2) /\
  ((Z.of_nat (List.length [0; 0]) + 3 < size_modulus)%Z -> call1 = call2).
Proof.
  assert (Hskip : (0 <= 3 < size_modulus)%Z) by (unfold size_modulus; lia).
  assert (HN : (Z.of_nat (List.length [0; 0]) < size_modulus)%Z)
    by (unfold size_modulus; cbn; lia).
  split; [repeat split; try apply Hskip; try exact HN;
          apply steady_engine_same_stream|].
  exact (catalog_deterministic steady_engine steady_engine (PQ := list_queue)
           1 0 1 1 2 1 0 (1/2) 3 42 [0; 0] [0; 0] [1; 1] [1; 1]
           (steady_engine_same_stream 42) eq_refl eq_refl Hskip HN).
Defined.

(** ** The variates an event consumes *)

Section Variates.

Context {G : Type} {RE : RandomEngine G} {Q : Type} {PQ : PriorityQueue Q}.

Variables Mmin Mmax beta : R.
Variable process : Process_M_t.t.

Local Abbreviation step := (next_event (G := G) (Q := Q) Mmin Mmax beta process).

Lemma draws_succ (k : nat) (g : G) : draws (S k) g = snd (uniform (draws k g)).
Proof. exact (iterate_succ (fun g' => snd (uniform g')) k g). Qed.

Lemma draws_plus (j k : nat) (g : G) : draws (j + k) g = draws k (draws j g).
Proof. exact (iterate_plus (fun g' => snd (uniform g')) j k g). Qed.

(** Both branches of the schedule draw once. *)
Lemma next_time_rng (s : sim_state G Q) :
  st_rng (next_time process s) = snd (uniform (st_rng s)).
Proof.
  unfold next_time. destruct (takes_background s); [reflexivity|].
  destruct (pq_top (st_descendants s)); reflexivity.
Qed.

Lemma next_event_rng (s : sim_state G Q) :
  st_rng (step s) = draws 3 (st_rng s).
Proof.
  unfold next_event, mark_and_trigger. cbn [st_rng].
  rewrite next_time_rng. reflexivity.
Qed.

Lemma next_event_magnitude (s : sim_state G Q) :
  st_M (step s)
  = draw_magnitude (fst (uniform (draws 1 (st_rng s)))) Mmin Mmax beta.
Proof.
  unfold next_event, mark_and_trigger. cbn [st_M].
  rewrite next_time_rng. reflexivity.
Qed.

Lemma state_after_succ (seed : Z) (k : nat) :
  state_after (G := G) (Q := Q) Mmin Mmax beta process seed (S k)
  = step (state_after Mmin Mmax beta process seed k).
Proof. unfold state_after. apply iterate_succ. Qed.

Lemma state_after_rng (seed : Z) (k : nat) :
  st_rng (state_after (G := G) (Q := Q) Mmin Mmax beta process seed k)
  = draws (1 + 3 * k) (rng_seed seed).
Proof.
  induction k as [|k IH].
  - reflexivity.
  - rewrite state_after_succ, next_event_rng, IH, <- draws_plus.
    f_equal. lia.
Qed.

Lemma state_after_magnitude (seed : Z) (k : nat) :
  st_M (state_after (G := G) (Q := Q) Mmin Mmax beta process seed (S k))
  = draw_magnitude (variate seed (3 * k + 2)) Mmin Mmax beta.
Proof.
  rewrite state_after_succ, next_event_magnitude, state_after_rng,
    <- draws_plus.
  unfold variate. now replace (3 * k + 2)%nat with (1 + 3 * k + 1)%nat by lia.
Qed.

Lemma catalog_states_nth (seed : Z) (N_skip N i : nat) (d : sim_state G Q) :
  (i < N)%nat ->
  nth i (catalog_states Mmin Mmax beta process seed N_skip N) d
  = state_after Mmin Mmax beta process seed (S (N_skip + i)).
Proof.
  intros Hi. unfold catalog_states. rewrite trajectory_nth by exact Hi.
  unfold state_after.
  replace (S (N_skip + i)) with (N_skip + S i)%nat by lia.
  now rewrite iterate_plus.
Qed.

Lemma catalog_states_length (seed : Z) (N_skip N : nat) :
  List.length (catalog_states (G := G) (Q := Q) Mmin Mmax beta process seed
                 N_skip N) = N.
Proof. apply trajectory_length. Qed.

(** The catalog, event by event. *)
Lemma catalog_states_seq (seed : Z) (N_skip N : nat) :
  catalog_states (G := G) (Q := Q) Mmin Mmax beta process seed N_skip N
  = map (fun i => state_after Mmin Mmax beta process seed (S (N_skip + i)))
        (seq 0 N).
Proof.
  apply (nth_ext _ _ (initial_state process seed) (initial_state process seed)).
  - now rewrite catalog_states_length, length_map, length_seq.
  - intros i Hi. rewrite catalog_states_length in Hi.
    rewrite catalog_states_nth by exact Hi.
    rewrite (nth_indep _ _
      (state_after Mmin Mmax beta process seed (S (N_skip + 0))))
      by now rewrite length_map, length_seq.
    rewrite (map_nth (fun i => state_after Mmin Mmax beta process seed
                                 (S (N_skip + i)))).
    now rewrite seq_nth by exact Hi.
Qed.

Lemma catalog_magnitudes (seed : Z) (N_skip N : nat) :
  map st_M (catalog_states (G := G) (Q := Q) Mmin Mmax beta process seed
              N_skip N)
  = map (fun i => draw_magnitude (variate seed (3 * (N_skip + i) + 2))
                    Mmin Mmax beta) (seq 0 N).
Proof.
  rewrite catalog_states_seq, map_map. apply map_ext. intros i.
  apply state_after_magnitude.
Qed.

End Variates.

(** X1: every call of [next_event] draws exactly three variates, whichever
    branch of the schedule it takes and whether or not children are queued;
    after [k] events the engine has been advanced [1 + 3 k] times, the one
    draw being that of the first background candidate. *)
Theorem three_variates_per_event
    {G : Type} {RE : RandomEngine G} {Q : Type} {PQ : PriorityQueue Q}
    (Mmin Mmax beta : R) (process : Process_M_t.t) :
  (forall s : sim_state G Q,
     st_rng (next_event Mmin Mmax beta process s) = draws 3 (st_rng s)) /\
  (forall (seed : Z) (k : nat),
     st_rng (state_after (G := G) (Q := Q) Mmin Mmax beta process seed k)
     = draws (1 + 3 * k) (rng_seed seed)).
Proof.
  split.
  - intros s. apply next_event_rng.
  - intros seed k. apply state_after_rng.
Qed.

(** X2: the magnitudes written do not depend on [mu_0], [p], [c], [Mr] or
    [offspring_fraction]: two calls that pass the sanity checks with the same
    [Mmin], [Mmax], [beta], [N_skip], seed and buffer size write the same
    magnitudes, the [i]-th being [draw_magnitude] of the variate number
    [3 (N_skip + i) + 2] of the engine. *)
Theorem magnitudes_ignore_the_rates
    {G : Type} {RE : RandomEngine G} {Q : Type} {PQ : PriorityQueue Q}
    (mu_0 p c Mr offspring_fraction mu_0' p' c' Mr' offspring_fraction' : R)
    (Mmin Mmax beta : R) (N_skip seed : Z) (Mi ti : list R) :
  sanity Mmin Mmax p offspring_fraction = None ->
  sanity Mmin Mmax p' offspring_fraction' = None ->
  List.length ti = List.length Mi ->
  (0 <= N_skip)%Z ->
  (Z.of_nat (List.length Mi) + N_skip < size_modulus)%Z ->
  exists written t1 t2 : list R,
    ETAS_generate_catalog_M_t (G := G) (Q := Q) mu_0 Mmin Mmax beta p c Mr
      offspring_fraction N_skip seed Mi ti = inr (written, t1) /\
    ETAS_generate_catalog_M_t (G := G) (Q := Q) mu_0' Mmin Mmax beta p' c' Mr'
      offspring_fraction' N_skip seed Mi ti = inr (written, t2) /\
    written
    = map (fun i => draw_magnitude
                      (variate seed (3 * (Z.to_nat N_skip + i) + 2))
                      Mmin Mmax beta)
          (seq 0 (List.length Mi)).
Proof.
  intros Hs Hs' Hlen Hskip Hfit.
  eexists _, _, _. split; [|split].
  - apply ETAS_fills_buffers; eassumption.
  - rewrite (ETAS_fills_buffers mu_0' Mmin Mmax beta p' c' Mr'
               offspring_fraction' N_skip seed Mi ti Hs' Hlen Hskip Hfit).
    rewrite !catalog_magnitudes. reflexivity.
  - apply catalog_magnitudes.
Qed.

Lemma magnitudes_ignore_the_rates_witness :
  (sanity 0 1 2 (1/2) = None /\ sanity 0 1 3 0 = None /\
   List.length [0; 0] = List.length [0; 0] /\ (0 <= 1)%Z /\
   (Z.of_nat (List.length [0; 0]) + 1 < size_modulus)%Z) /\
  exists written t1 t2 : list R,
    ETAS_generate_catalog_M_t (RE := steady_engine) (PQ := list_queue)
      1 0 1 1 2 1 0 (1/2) 1 0 [0; 0] [0; 0] = inr (written, t1) /\
    ETAS_generate_catalog_M_t (RE := steady_engine) (PQ := list_queue)
      5 0 1 1 3 2 1 0 1 0 [0; 0] [0; 0] = inr (written, t2) /\
    written
    = map (fun i => draw_magnitude
                      (variate (RE := steady_engine) 0
                         (3 * (Z.to_nat 1 + i) + 2)) 0 1 1)
          (seq 0 (List.length [0; 0])).
Proof.
  assert (H1 : sanity 0 1 2 (1/2) = None) by (apply sanity_none; lra).
  assert (H2 : sanity 0 1 3 0 = None) by (apply sanity_none; lra).
  assert (H3 : (Z.of_nat (List.length [0; 0]) + 1 < size_modulus)%Z)
    by (unfold size_modulus; simpl; lia).
  split.
  - repeat split; first [exact H1 | exact H2 | exact H3 | lia].
  - apply (magnitudes_ignore_the_rates (RE := steady_engine) (PQ := list_queue)
             1 2 1 0 (1/2) 5 3 2 1 0 0 1 1 1 0 [0; 0] [0; 0] H1 H2);
      first [reflexivity | lia | exact H3].
Defined.

(** ** The catalog as a window of one event sequence *)

Section Windows.

Context {A : Type} (body : A -> A).

Lemma trajectory_app (j k : nat) (a : A) :
  trajectory body (j + k) a
  = trajectory body j a ++ trajectory body k (iterate body j a).
Proof.
  revert a. induction j as [|j IH]; intros a.
  - reflexivity.
  - cbn [Nat.add trajectory iterate app]. now rewrite IH.
Qed.

Lemma trajectory_window (b N r : nat) (a : A) :
  firstn N (skipn b (trajectory body (b + (N + r)) a))
  = trajectory body N (iterate body b a).
Proof.
  rewrite trajectory_app.
  rewrite skipn_app, trajectory_length, Nat.sub_diag.
  rewrite (skipn_all2 (trajectory body b a))
    by (rewrite trajectory_length; lia).
  cbn [skipn app]. rewrite trajectory_app.
  rewrite firstn_app, trajectory_length, Nat.sub_diag.
  rewrite firstn_all2 by (rewrite trajectory_length; lia).
  cbn [firstn]. now rewrite app_nil_r.
Qed.

End Windows.

Lemma draw_magnitude_closed_range (q Mmin Mmax beta : R) :
  Mmin < Mmax -> beta <> 0 -> 0 <= q <= 1 ->
  Mmin <= draw_magnitude q Mmin Mmax beta <= Mmax.
Proof.
  intros HM Hb Hq. unfold draw_magnitude.
  set (D := Mmax - Mmin). assert (HD : 0 < D) by (unfold D; lra).
  set (w := exp (- beta * D)).
  assert (Hw : 0 < w) by apply exp_pos.
  set (y := 1 - q * (1 - w)).
  assert (Hlnw : ln w = - beta * D) by apply ln_exp.
  assert (Hl : (beta < 0 /\ 0 <= ln y <= - beta * D) \/
               (0 < beta /\ - beta * D <= ln y <= 0)).
  { destruct (Rdichotomy _ _ Hb) as [Hneg | Hpos]; [left | right];
      (split; [assumption|]).
    - assert (H1w : 1 < w).
      { unfold w. rewrite <- exp_0. apply exp_increasing. nra. }
      assert (Hy : 1 <= y <= w) by (unfold y; nra).
      rewrite <- Hlnw, <- ln_1. split.
      + destruct (proj1 Hy) as [Hlt | <-]; [|lra].
        left. apply ln_increasing; lra.
      + destruct (proj2 Hy) as [Hlt | ->]; [|lra].
        left. apply ln_increasing; lra.
    - assert (Hw1 : w < 1).
      { unfold w. rewrite <- exp_0. apply exp_increasing. nra. }
      assert (Hy : w <= y <= 1) by (unfold y; nra).
      rewrite <- Hlnw, <- ln_1. split.
      + destruct (proj1 Hy) as [Hlt | <-]; [|lra].
        left. apply ln_increasing; lra.
      + destruct (proj2 Hy) as [Hlt | ->]; [|lra].
        left. apply ln_increasing; lra. }
  assert (Hx : exists x, ln y = x * beta /\ - D <= x <= 0).
  { exists (ln y / beta).
    assert (He : ln y = ln y / beta * beta) by now field.
    split; [exact He|].
    set (x := ln y / beta) in *. clearbody x. rewrite He in Hl.
    destruct Hl as [[Hneg Hl] | [Hpos Hl]]; nra. }
  destruct Hx as (x & Hx & Hxr). rewrite Hx.
  replace (x * beta / beta) with x by now field.
  unfold D in Hxr. lra.
Qed.

(** X3: with [N_skip = a + b] the call writes the events number
    [a + b + 1 .. a + b + N] of the one event sequence that the seed and the
    parameters determine: what a call with [N_skip = a] writes into longer
    buffers, without its first [b] entries and cut to [N] entries.  Skipping
    drops a prefix ([b > 0]) and a longer buffer extends the catalog
    ([b = 0]). *)
Theorem catalog_is_a_window
    {G : Type} {RE : RandomEngine G} {Q : Type} {PQ : PriorityQueue Q}
    (mu_0 Mmin Mmax beta p c Mr offspring_fraction : R) (a b seed : Z)
    (Mi ti Mi_long ti_long : list R) :
  sanity Mmin Mmax p offspring_fraction = None ->
  List.length ti = List.length Mi ->
  List.length ti_long = List.length Mi_long ->
  (0 <= a)%Z -> (0 <= b)%Z ->
  (Z.to_nat b + List.length Mi <= List.length Mi_long)%nat ->
  (Z.of_nat (List.length Mi_long) + a < size_modulus)%Z ->
  exists M_long t_long : list R,
    ETAS_generate_catalog_M_t (G := G) (Q := Q) mu_0 Mmin Mmax beta p c Mr
      offspring_fraction a seed Mi_long ti_long = inr (M_long, t_long) /\
    ETAS_generate_catalog_M_t (G := G) (Q := Q) mu_0 Mmin Mmax beta p c Mr
      offspring_fraction (a + b) seed Mi ti
    = inr (firstn (List.length Mi) (skipn (Z.to_nat b) M_long),
           firstn (List.length Mi) (skipn (Z.to_nat b) t_long)).
Proof.
  intros Hs Hlen Hlen' Ha Hb Hfit Hsize.
  eexists _, _. split.
  - apply ETAS_fills_buffers; eassumption.
  - rewrite ETAS_fills_buffers by (try eassumption; lia).
    unfold catalog_states, state_after.
    rewrite !skipn_map, !firstn_map.
    replace (List.length Mi_long)
      with (Z.to_nat b + (List.length Mi
                          + (List.length Mi_long
                             - (Z.to_nat b + List.length Mi))))%nat by lia.
    rewrite trajectory_window.
    rewrite Z2Nat.inj_add by assumption.
    now rewrite iterate_plus.
Qed.

Lemma catalog_is_a_window_witness :
  (sanity 0 1 2 (1/2) = None /\
   List.length [0; 0] = List.length [0; 0] /\
   List.length [0; 0; 0; 0] = List.length [0; 0; 0; 0] /\
   (0 <= 3)%Z /\ (0 <= 1)%Z /\
   (Z.to_nat 1 + List.length [0; 0] <= List.length [0; 0; 0; 0])%nat /\
   (Z.of_nat (List.length [0; 0; 0; 0]) + 3 < size_modulus)%Z) /\
  exists M_long t_long : list R,
    ETAS_generate_catalog_M_t (RE := steady_engine) (PQ := list_queue)
      1 0 1 1 2 1 0 (1/2) 3 0 [0; 0; 0; 0] [0; 0; 0; 0]
    = inr (M_long, t_long) /\
    ETAS_generate_catalog_M_t (RE := steady_engine) (PQ := list_queue)
      1 0 1 1 2 1 0 (1/2) (3 + 1) 0 [0; 0] [0; 0]
    = inr (firstn (List.length [0; 0]) (skipn (Z.to_nat 1) M_long),
           firstn (List.length [0; 0]) (skipn (Z.to_nat 1) t_long)).
Proof.
  assert (H1 : sanity 0 1 2 (1/2) = None) by (apply sanity_none; lra).
  assert (H3 : (Z.of_nat (List.length [0; 0; 0; 0]) + 3 < size_modulus)%Z)
    by (unfold size_modulus; simpl; lia).
  assert (H4 : (Z.to_nat 1 + List.length [0; 0]
                <= List.length [0; 0; 0; 0])%nat) by (simpl; lia).
  split.
  - repeat split; first [exact H1 | exact H3 | exact H4 | lia].
  - apply (catalog_is_a_window (RE := steady_engine) (PQ := list_queue)
             1 0 1 1 2 1 0 (1/2) 3 1 0 [0; 0] [0; 0] [0; 0; 0; 0] [0; 0; 0; 0]
             H1);
      first [reflexivity | lia | exact H3 | exact H4].
Defined.

(** X5: when [N + N_skip] does not fit [size_t], nothing is written.  The
    bound [N + N_skip] of the second loop wraps around to a value below
    [N_skip], the count the warm-up loop ends with, so that a call that
    passes the checks returns both buffers as they were. *)
Theorem wrapped_bound_writes_nothing
    {G : Type} {RE : RandomEngine G} {Q : Type} {PQ : PriorityQueue Q}
    (mu_0 Mmin Mmax beta p c Mr offspring_fraction : R) (N_skip seed : Z)
    (Mi ti : list R) :
  sanity Mmin Mmax p offspring_fraction = None ->
  List.length ti = List.length Mi ->
  (0 <= N_skip < size_modulus)%Z ->
  (Z.of_nat (List.length Mi) < size_modulus)%Z ->
  (size_modulus <= Z.of_nat (List.length Mi) + N_skip)%Z ->
  (size_wrap (Z.of_nat (List.length Mi) + N_skip) < N_skip)%Z /\
  ETAS_generate_catalog_M_t (G := G) (Q := Q) mu_0 Mmin Mmax beta p c Mr
    offspring_fraction N_skip seed Mi ti = inr (Mi, ti).
Proof.
  intros Hs Hlen Hskip HN Hwrap. split.
  - unfold size_wrap.
    replace (Z.of_nat (List.length Mi) + N_skip)%Z
      with (Z.of_nat (List.length Mi) + N_skip - size_modulus
            + 1 * size_modulus)%Z by ring.
    rewrite Z.mod_add by (unfold size_modulus; lia).
    rewrite Z.mod_small; unfold size_modulus in *; lia.
  - now apply ETAS_wraps_around.
Qed.

Lemma wrapped_bound_writes_nothing_witness :
  (sanity 0 1 2 (1/2) = None /\
   List.length [7; 8] = List.length [5; 6] /\
   (0 <= size_modulus - 2 < size_modulus)%Z /\
   (Z.of_nat (List.length [5; 6]) < size_modulus)%Z /\
   (size_modulus <= Z.of_nat (List.length [5; 6]) + (size_modulus - 2))%Z) /\
  (size_wrap (Z.of_nat (List.length [5; 6]) + (size_modulus - 2))
   < size_modulus - 2)%Z /\
  ETAS_generate_catalog_M_t (RE := steady_engine) (PQ := list_queue)
    1 0 1 1 2 1 0 (1/2) (size_modulus - 2) 0 [5; 6] [7; 8]
  = inr ([5; 6], [7; 8]).
Proof.
  assert (H1 : sanity 0 1 2 (1/2) = None) by (apply sanity_none; lra).
  assert (H2 : (0 <= size_modulus - 2 < size_modulus)%Z)
    by (unfold size_modulus; lia).
  assert (H3 : (Z.of_nat (List.length [5; 6]) < size_modulus)%Z)
    by (unfold size_modulus; simpl; lia).
  assert (H4 : (size_modulus
                <= Z.of_nat (List.length [5; 6]) + (size_modulus - 2))%Z)
    by (cbn [List.length]; lia).
  split.
  - split; [exact H1|]. split; [reflexivity|]. split; [exact H2|].
    split; [exact H3 | exact H4].
  - exact (wrapped_bound_writes_nothing (RE := steady_engine)
             (PQ := list_queue) 1 0 1 1 2 1 0 (1/2) (size_modulus - 2) 0
             [5; 6] [7; 8] H1 eq_refl H2 H3 H4).
Defined.

(** ** A worked instance with children *)

(** Under [steady_engine] the first event of [busy_process] opens a
    stream. *)
Lemma busy_first_event :
  let s1 := state_after (RE := steady_engine) (PQ := list_queue)
              0 1 1 busy_process 0 1 in
  exists tn : R,
    st_descendants s1 = [excitement_t.Build (st_t s1) (st_M s1) tn].
Proof.
  cbv zeta. unfold state_after. cbn [iterate]. unfold next_event.
  set (s0 := next_time busy_process
               (initial_state (RE := steady_engine) (PQ := list_queue)
                  busy_process 0)).
  assert (Hq0 : st_descendants s0 = []) by reflexivity.
  assert (Hg0 : fst (uniform (snd (uniform (st_rng s0)))) = steady_variate)
    by reflexivity.
  assert (HM0 : fst (uniform (st_rng s0)) = steady_variate) by reflexivity.
  unfold mark_and_trigger. cbn [st_t st_M st_descendants].
  rewrite Hq0, Hg0, HM0.
  set (M := draw_magnitude steady_variate 0 1 1).
  assert (HM : 0 <= M <= 1).
  { apply draw_magnitude_closed_range; [lra | lra |].
    pose proof steady_variate_open. lra. }
  rewrite next_single_occurrence_some.
  - eexists. reflexivity.
  - unfold Lambda_i_oo, f, busy_process. cbv zeta.
    cbn [Process_M_t.p Process_M_t.c Process_M_t.Tref Process_M_t.FK
         Process_M_t.beta Process_M_t.Mr].
    replace ((st_t s0 - st_t s0 + 1) / 1) with 1 by field.
    assert (HR : Rpower 1 (1 - 2) = 1).
    { unfold Rpower. rewrite ln_1, Rmult_0_r. apply exp_0. }
    rewrite HR.
    replace (- (- exp (1 * (M - 0)) * 1 * 2 / (1 - 2) * 1))
      with (- (2 * exp M)).
    2:{ replace (1 * (M - 0)) with M by ring. field. }
    unfold steady_variate. intros Hle.
    assert (H1 : 1 <= exp M).
    { rewrite <- exp_0. destruct (proj1 HM) as [Hlt | <-]; [|lra].
      left. now apply exp_increasing. }
    destruct Hle as [Hlt | Heq].
    + apply exp_lt_inv in Hlt. lra.
    + apply exp_inv in Heq. lra.
Qed.

(** ** The open descendant streams *)

Section OpenStreams.

Context {G : Type} {RE : RandomEngine G} {Q : Type} {PQ : PriorityQueue Q}.
Hypothesis laws : PriorityQueueLaws PQ.

Variables Mmin Mmax beta : R.
Variable process : Process_M_t.t.

Local Abbreviation step := (next_event (G := G) (Q := Q) Mmin Mmax beta process).
Local Abbreviation open := (fun s : sim_state G Q => pq_elements (st_descendants s)).

(** The top of the queue has the smallest pending time. *)
Lemma pq_top_least (q : Q) (top x : excitement_t.t) :
  pq_top q = Some top -> In x (pq_elements q) ->
  excitement_t.tnext top <= excitement_t.tnext x.
Proof.
  intros Htop Hx. destruct (pq_top_spec PQ laws q top Htop) as [_ Hmin].
  specialize (Hmin x Hx). unfold excitement_t.lt in Hmin. lra.
Qed.

Lemma next_time_cases (s : sim_state G Q) :
  (takes_background s = true /\
   next_time process s = background_event process s) \/
  (exists top, pq_top (st_descendants s) = Some top /\
               excitement_t.tnext top <= st_next_bg s /\
               next_time process s = descendant_event process top s).
Proof.
  destruct (takes_background s) eqn:Hb.
  - left. split; [reflexivity|]. now apply next_time_background.
  - right. destruct (next_time_descendant process s Hb) as (top & Ht & Hn & He).
    exists top. repeat split; [exact Ht | lra | exact He].
Qed.

(** A descendant event takes its stream out of the queue and puts it back
    with its next child, if there is one. *)
Lemma descendant_event_open (top : excitement_t.t) (s : sim_state G Q) :
  pq_top (st_descendants s) = Some top ->
  let rest := pq_elements (pq_pop (st_descendants s)) in
  Permutation (open s) (top :: rest) /\
  (open (descendant_event process top s) = rest \/
   exists tn,
     next_single_occurrence (fst (uniform (st_rng s))) (excitement_t.ti top)
       (excitement_t.M top) (excitement_t.tnext top) process = Some tn /\
     Permutation (open (descendant_event process top s))
                 (excitement_t.with_tnext top tn :: rest)).
Proof.
  intros Htop rest. split; [now apply (pq_pop_spec PQ laws)|].
  unfold descendant_event. cbn [st_descendants].
  destruct (next_single_occurrence _ _ _ _ process) as [tn|].
  - right. exists tn. split; [reflexivity|]. apply (pq_push_spec PQ laws).
  - now left.
Qed.

(** The event opens at most one stream, its own. *)
Lemma mark_and_trigger_open (s : sim_state G Q) :
  let s' := mark_and_trigger Mmin Mmax beta process s in
  st_t s' = st_t s /\ st_next_bg s' = st_next_bg s /\
  (open s' = open s \/
   exists tn,
     next_single_occurrence (fst (uniform (snd (uniform (st_rng s)))))
       (st_t s) (st_M s') (st_t s) process = Some tn /\
     Permutation (open s')
                 (excitement_t.Build (st_t s') (st_M s') tn :: open s)).
Proof.
  unfold mark_and_trigger. cbn [st_t st_M st_next_bg st_descendants].
  split; [reflexivity|]. split; [reflexivity|].
  destruct (next_single_occurrence _ _ _ _ process) as [tn|].
  - right. exists tn. split; [reflexivity|]. apply (pq_push_spec PQ laws).
  - now left.
Qed.

Lemma next_time_length (s : sim_state G Q) :
  (List.length (open (next_time process s)) <= List.length (open s) /\
   List.length (open s) <= S (List.length (open (next_time process s))))%nat.
Proof.
  destruct (next_time_cases s) as [[_ ->] | (top & Htop & _ & ->)].
  - cbn [background_event st_descendants]. lia.
  - destruct (descendant_event_open top s Htop) as [Hperm Hcase].
    apply Permutation_length in Hperm. cbn [List.length] in Hperm.
    destruct Hcase as [-> | (tn & _ & Hp)].
    + lia.
    + apply Permutation_length in Hp. cbn [List.length] in Hp. lia.
Qed.

Lemma next_event_length (s : sim_state G Q) :
  (List.length (open (step s)) <= S (List.length (open s)) /\
   List.length (open s) <= S (List.length (open (step s))))%nat.
Proof.
  unfold next_event.
  pose proof (next_time_length s) as Hn.
  destruct (mark_and_trigger_open (next_time process s))
    as (_ & _ & [-> | (tn & _ & Hp)]).
  - lia.
  - apply Permutation_length in Hp. cbn [List.length] in Hp. lia.
Qed.

Lemma state_after_length (seed : Z) (k : nat) :
  (List.length (open (state_after Mmin Mmax beta process seed k)) <= k)%nat.
Proof.
  induction k as [|k IH].
  - unfold state_after. cbn [iterate initial_state st_descendants].
    rewrite (pq_empty_elements PQ laws). reflexivity.
  - rewrite state_after_succ.
    pose proof (next_event_length
                  (state_after Mmin Mmax beta process seed k)). lia.
Qed.

(** Where the streams of the queue come from. *)
Lemma next_event_parents (s : sim_state G Q) (e : excitement_t.t) :
  In e (open (step s)) ->
  (exists e', In e' (open s) /\
              excitement_t.ti e = excitement_t.ti e' /\
              excitement_t.M e = excitement_t.M e') \/
  (excitement_t.ti e = st_t (step s) /\ excitement_t.M e = st_M (step s)).
Proof.
  intros He. unfold next_event in *.
  set (s1 := next_time process s) in *.
  assert (H1 : forall x, In x (open s1) ->
            exists e', In e' (open s) /\
              excitement_t.ti x = excitement_t.ti e' /\
              excitement_t.M x = excitement_t.M e').
  { intros x Hx. unfold s1 in Hx.
    destruct (next_time_cases s) as [[_ Heq] | (top & Htop & _ & Heq)];
      rewrite Heq in Hx.
    - exists x. now repeat split.
    - destruct (descendant_event_open top s Htop) as [Hperm Hcase].
      assert (Hrest : forall y,
                In y (pq_elements (pq_pop (st_descendants s))) ->
                In y (open s)).
      { intros y Hy. eapply Permutation_in; [symmetry; exact Hperm|].
        now right. }
      assert (Htopin : In top (open s)).
      { eapply Permutation_in; [symmetry; exact Hperm | now left]. }
      destruct Hcase as [Hc | (tn & _ & Hp)].
      + rewrite Hc in Hx. exists x. split; [now apply Hrest | now split].
      + apply (Permutation_in _ Hp) in Hx. destruct Hx as [<- | Hx].
        * exists top. now repeat split.
        * exists x. split; [now apply Hrest | now split]. }
  destruct (mark_and_trigger_open s1) as (_ & _ & [Hc | (tn & _ & Hp)]).
  - left. apply H1. now rewrite <- Hc.
  - apply (Permutation_in _ Hp) in He. destruct He as [<- | He].
    + right. now split.
    + left. now apply H1.
Qed.

Lemma state_after_parents (seed : Z) (k : nat) (e : excitement_t.t) :
  In e (open (state_after Mmin Mmax beta process seed k)) ->
  exists j : nat, (1 <= j <= k)%nat /\
    excitement_t.ti e = st_t (state_after (G := G) (Q := Q) Mmin Mmax beta
                                process seed j) /\
    excitement_t.M e = st_M (state_after (G := G) (Q := Q) Mmin Mmax beta
                               process seed j).
Proof.
  revert e. induction k as [|k IH]; intros e He.
  - unfold state_after in He.
    cbn [iterate initial_state st_descendants] in He.
    rewrite (pq_empty_elements PQ laws) in He. contradiction.
  - rewrite state_after_succ in He.
    destruct (next_event_parents _ e He) as [(e' & He' & Hti & HM) | [Hti HM]].
    + destruct (IH e' He') as (j & Hj & Hti' & HM').
      exists j. split; [lia|]. split; congruence.
    + exists (S k). split; [lia|]. rewrite state_after_succ. now split.
Qed.

(** The time of the event is the smallest pending time. *)
Lemma next_event_earliest (s : sim_state G Q) :
  st_t (step s) <= st_next_bg s /\
  (forall e, In e (open s) -> st_t (step s) <= excitement_t.tnext e) /\
  (st_t (step s) = st_next_bg s \/
   exists e, In e (open s) /\ st_t (step s) = excitement_t.tnext e).
Proof.
  unfold next_event.
  destruct (mark_and_trigger_open (next_time process s)) as (-> & _ & _).
  destruct (next_time_cases s) as [[Hb ->] | (top & Htop & Hle & ->)].
  - cbn [background_event st_t]. split; [lra|]. split; [|now left].
    intros e He. apply takes_background_iff in Hb; [|exact laws].
    destruct Hb as [Hnil | (top & Htop & Hlt)].
    + rewrite Hnil in He. contradiction.
    + pose proof (pq_top_least _ top e Htop He). lra.
  - cbn [descendant_event st_t]. split; [exact Hle|]. split.
    + intros e He. now apply (pq_top_least _ top e Htop).
    + right. exists top. split; [|reflexivity].
      now apply (pq_top_spec PQ laws).
Qed.

End OpenStreams.

(** X6: the number of open descendant streams changes by at most one per
    event and never exceeds the number of events generated so far. *)
Theorem open_streams_bounded
    {G : Type} {RE : RandomEngine G} {Q : Type} {PQ : PriorityQueue Q}
    (Mmin Mmax beta : R) (process : Process_M_t.t) :
  PriorityQueueLaws PQ ->
  (forall s : sim_state G Q,
     let s' := next_event Mmin Mmax beta process s in
     (List.length (pq_elements (st_descendants s'))
        <= S (List.length (pq_elements (st_descendants s))) /\
      List.length (pq_elements (st_descendants s))
        <= S (List.length (pq_elements (st_descendants s'))))%nat) /\
  (forall (seed : Z) (k : nat),
     (List.length
        (pq_elements
           (st_descendants
              (state_after (G := G) (Q := Q) Mmin Mmax beta process seed k)))
      <= k)%nat).
Proof.
  intros laws. split.
  - intros s. now apply next_event_length.
  - intros seed k. now apply state_after_length.
Qed.

Lemma open_streams_bounded_witness :
  PriorityQueueLaws list_queue /\
  (forall s : sim_state unit (list excitement_t.t),
     let s' := next_event (RE := steady_engine) 0 1 1 unit_process s in
     (List.length (pq_elements (st_descendants s'))
        <= S (List.length (pq_elements (st_descendants s))) /\
      List.length (pq_elements (st_descendants s))
        <= S (List.length (pq_elements (st_descendants s'))))%nat) /\
  (forall (seed : Z) (k : nat),
     (List.length
        (pq_elements
           (st_descendants
              (state_after (RE := steady_engine) (PQ := list_queue)
                 0 1 1 unit_process seed k)))
      <= k)%nat).
Proof.
  split; [exact list_queue_laws|].
  exact (open_streams_bounded (RE := steady_engine) (PQ := list_queue)
           0 1 1 unit_process list_queue_laws).
Defined.

(** X7: every stream in the queue belongs to an event generated before: its
    [ti] and [M] are the time and the magnitude of one of the first [k]
    events. *)
Theorem open_streams_have_parents
    {G : Type} {RE : RandomEngine G} {Q : Type} {PQ : PriorityQueue Q}
    (Mmin Mmax beta : R) (process : Process_M_t.t) (seed : Z) (k : nat)
    (e : excitement_t.t) :
  PriorityQueueLaws PQ ->
  In e (pq_elements
          (st_descendants
             (state_after (G := G) (Q := Q) Mmin Mmax beta process seed k))) ->
  exists j : nat, (1 <= j <= k)%nat /\
    excitement_t.ti e
      = st_t (state_after (G := G) (Q := Q) Mmin Mmax beta process seed j) /\
    excitement_t.M e
      = st_M (state_after (G := G) (Q := Q) Mmin Mmax beta process seed j).
Proof. intros laws. now apply state_after_parents. Qed.

Lemma open_streams_have_parents_witness :
  let s1 := state_after (RE := steady_engine) (PQ := list_queue)
              0 1 1 busy_process 0 1 in
  let e := hd (excitement_t.Build 0 0 0) (st_descendants s1) in
  (PriorityQueueLaws list_queue /\ In e (pq_elements (st_descendants s1))) /\
  exists j : nat, (1 <= j <= 1)%nat /\
    excitement_t.ti e
      = st_t (state_after (RE := steady_engine) (PQ := list_queue)
                0 1 1 busy_process 0 j) /\
    excitement_t.M e
      = st_M (state_after (RE := steady_engine) (PQ := list_queue)
                0 1 1 busy_process 0 j).
Proof.
  intros s1 e.
  assert (Hin : In e (pq_elements (st_descendants s1))).
  { destruct busy_first_event as (tn & Hq). fold s1 in Hq.
    unfold e. rewrite Hq. now left. }
  split; [split; [exact list_queue_laws | exact Hin]|].
  exact (open_streams_have_parents (RE := steady_engine) (PQ := list_queue)
           0 1 1 busy_process 0 1 e list_queue_laws Hin).
Defined.



(** ** The sanity checks *)

Lemma sanity_checks_refine (Mmin Mmax p offspring_fraction : R) :
  IEEE_checks.sanity (IEEE.finite Mmin) (IEEE.finite Mmax) (IEEE.finite p)
    (IEEE.finite offspring_fraction)
  = sanity Mmin Mmax p offspring_fraction.
Proof.
  unfold IEEE_checks.sanity, sanity, IEEE_checks.ge, IEEE_checks.lt,
    IEEE.le, IEEE.one.
  destruct (Rle_dec Mmax Mmin), (Rge_dec Mmin Mmax); try lra; try reflexivity.
  destruct (Rle_dec p 1); try reflexivity.
  destruct (Rle_dec 1 offspring_fraction), (Rge_dec offspring_fraction 1);
    try lra; try reflexivity.
  now destruct (Rlt_dec offspring_fraction 0).
Qed.

Lemma ge_nan_l (x : IEEE.double) : IEEE_checks.ge IEEE.nan x = false.
Proof. now destruct x. Qed.

Lemma ge_nan_r (x : IEEE.double) : IEEE_checks.ge x IEEE.nan = false.
Proof. reflexivity. Qed.

(** X21: the sanity checks do not catch a NaN.  Over doubles with special
    values the checks agree with those over the reals on finite arguments;
    every comparison with a NaN being false, a call that passes still passes
    with any of the four checked arguments replaced by NaN, a call with four
    NaN passes, and with a NaN magnitude bound every magnitude drawn is
    NaN. *)
Theorem sanity_accepts_nan :
  (forall Mmin Mmax p offspring_fraction : R,
     IEEE_checks.sanity (IEEE.finite Mmin) (IEEE.finite Mmax) (IEEE.finite p)
       (IEEE.finite offspring_fraction)
     = sanity Mmin Mmax p offspring_fraction) /\
  (forall Mmin Mmax p offspring_fraction : IEEE.double,
     IEEE_checks.sanity Mmin Mmax p offspring_fraction = None ->
     IEEE_checks.sanity IEEE.nan Mmax p offspring_fraction = None /\
     IEEE_checks.sanity Mmin IEEE.nan p offspring_fraction = None /\
     IEEE_checks.sanity Mmin Mmax IEEE.nan offspring_fraction = None /\
     IEEE_checks.sanity Mmin Mmax p IEEE.nan = None) /\
  IEEE_checks.sanity IEEE.nan IEEE.nan IEEE.nan IEEE.nan = None /\
  (forall q Mmin Mmax beta : IEEE.double,
     IEEE.draw_magnitude q IEEE.nan Mmax beta = IEEE.nan /\
     IEEE.draw_magnitude q Mmin IEEE.nan beta = IEEE.nan).
Proof.
  split; [exact sanity_checks_refine|]. split; [|split; [reflexivity|]].
  - intros Mmin Mmax p offspring_fraction. unfold IEEE_checks.sanity.
    destruct (IEEE_checks.ge Mmin Mmax) eqn:H1; [discriminate|].
    destruct (IEEE.le p IEEE.one) eqn:H2; [discriminate|].
    destruct (IEEE_checks.ge offspring_fraction IEEE.one) eqn:H3;
      [discriminate|].
    destruct (IEEE_checks.lt offspring_fraction (IEEE.finite 0)) eqn:H4;
      [discriminate|].
    intros _. rewrite ge_nan_l. repeat split.
  - intros q Mmin Mmax beta. split.
    + unfold IEEE.draw_magnitude. now destruct Mmax, beta, q.
    + unfold IEEE.draw_magnitude.
      change (IEEE.sub IEEE.nan Mmin) with IEEE.nan.
      rewrite mul_nan_r.
      change (IEEE.sub IEEE.one (IEEE.exp IEEE.nan)) with IEEE.nan.
      rewrite mul_nan_r.
      change (IEEE.div (IEEE.log (IEEE.sub IEEE.one IEEE.nan)) beta)
        with IEEE.nan.
      apply sub_nan_r.
Qed.

(** X22: which error is reported.  The call throws exactly in the five cases
    below, tested in this order, so that of several violated preconditions
    the first one names the error; the size of the buffers is looked at
    last, and [mu_0], [beta], [c], [Mr], [N_skip] and the seed play no
    part. *)
Theorem first_violation_is_reported
    {G : Type} {RE : RandomEngine G} {Q : Type} {PQ : PriorityQueue Q}
    (mu_0 Mmin Mmax beta p c Mr offspring_fraction : R) (N_skip seed : Z)
    (Mi ti : list R) (what : string) :
  ETAS_generate_catalog_M_t (G := G) (Q := Q) mu_0 Mmin Mmax beta p c Mr
    offspring_fraction N_skip seed Mi ti = inl what
  <->
  (Mmin >= Mmax /\ what = "Mmin >= Mmax"%string) \/
  (Mmin < Mmax /\ p <= 1 /\ what = "p <= 1"%string) \/
  (Mmin < Mmax /\ 1 < p /\ offspring_fraction >= 1 /\
   what = "Instable process (offspring ratio > 1)"%string) \/
  (Mmin < Mmax /\ 1 < p /\ offspring_fraction < 0 /\
   what = "Offspring ratio needs to be non-negative."%string) \/
  (Mmin < Mmax /\ 1 < p /\ 0 <= offspring_fraction < 1 /\
   List.length ti <> List.length Mi /\
   what = "Size of M and t not compatible"%string).
Proof.
  unfold ETAS_generate_catalog_M_t, sanity.
  destruct (Rge_dec Mmin Mmax) as [H1 | H1].
  { split.
    - intros [= <-]. now left.
    - intros [[_ ->] | [H | [H | [H | H]]]]; [reflexivity | lra..]. }
  destruct (Rle_dec p 1) as [H2 | H2].
  { split.
    - intros [= <-]. right. left. repeat split; lra.
    - intros [H | [(_ & _ & ->) | [H | [H | H]]]]; [lra | reflexivity | lra..]. }
  destruct (Rge_dec offspring_fraction 1) as [H3 | H3].
  { split.
    - intros [= <-]. right. right. left. repeat split; lra.
    - intros [H | [H | [(_ & _ & _ & ->) | [H | H]]]];
        [lra | lra | reflexivity | lra..]. }
  destruct (Rlt_dec offspring_fraction 0) as [H4 | H4].
  { split.
    - intros [= <-]. right. right. right. left. repeat split; lra.
    - intros [H | [H | [H | [(_ & _ & _ & ->) | H]]]];
        [lra | lra | lra | reflexivity | lra]. }
  destruct (Z.of_nat (List.length ti) =? Z.of_nat (List.length Mi))%Z eqn:H5;
    cbn [negb].
  - apply Z.eqb_eq, Nat2Z.inj in H5. split; [discriminate|].
    intros [H | [H | [H | [H | (_ & _ & _ & H & _)]]]];
      [lra | lra | lra | lra | contradiction].
  - apply Z.eqb_neq in H5. split.
    + intros [= <-]. right. right. right. right.
      repeat split; try lra. intros E. apply H5. now rewrite E.
    + intros [H | [H | [H | [H | (_ & _ & _ & _ & ->)]]]];
        [lra | lra | lra | lra | reflexivity].
Qed.

(** ** Rounding to binary64 *)

Lemma powerRZ_2_lt (a b : Z) : (a < b)%Z -> powerRZ 2 a < powerRZ 2 b.
Proof.
  intros Hab.
  rewrite !powerRZ_Rpower by lra.
  apply Rpower_lt; [lra | now apply IZR_lt].
Qed.

Lemma powerRZ_2_le (a b : Z) : (a <= b)%Z -> powerRZ 2 a <= powerRZ 2 b.
Proof.
  intros Hab.
  destruct (Z.eq_dec a b) as [-> | Hne]; [lra |].
  left. apply powerRZ_2_lt. lia.
Qed.

Lemma powerRZ_2_pos (a : Z) : 0 < powerRZ 2 a.
Proof. apply powerRZ_lt. lra. Qed.

Lemma powerRZ_2_double (a : Z) : powerRZ 2 (a + 1) = 2 * powerRZ 2 a.
Proof.
  rewrite powerRZ_add by lra.
  change (powerRZ 2 1) with (2 ^ 1). lra.
Qed.

Lemma powerRZ_2_IZR (n : Z) : (0 <= n)%Z -> powerRZ 2 n = IZR (2 ^ n).
Proof.
  intros Hn.
  destruct n as [| k | k]; [reflexivity | | lia].
  cbn [powerRZ].
  now rewrite pow_IZR, positive_nat_Z.
Qed.

Lemma overflow_threshold_pos : 0 < Binary64.overflow_threshold.
Proof.
  unfold Binary64.overflow_threshold.
  pose proof (powerRZ_2_lt 970 1024 ltac:(lia)). lra.
Qed.

Lemma representable_bound (x : R) :
  Binary64.representable x -> Rabs x < Binary64.overflow_threshold.
Proof.
  intros (m & e & Hm & He & ->).
  unfold Binary64.overflow_threshold.
  rewrite Rabs_mult, (Rabs_pos_eq (powerRZ 2 e)) by (left; apply powerRZ_2_pos).
  rewrite Rabs_Zabs.
  assert (Hm' : IZR (Z.abs m) <= IZR (2 ^ 53) - 1).
  { rewrite <- minus_IZR. apply IZR_le. lia. }
  rewrite <- powerRZ_2_IZR in Hm' by lia.
  pose proof (powerRZ_2_le e 971 ltac:(lia)) as Hp.
  pose proof (powerRZ_2_pos e) as He0.
  pose proof (powerRZ_2_pos 970) as H970.
  assert (Habs : 0 <= IZR (Z.abs m)) by (apply IZR_le; lia).
  replace (powerRZ 2 1024) with (powerRZ 2 53 * powerRZ 2 971)
    by (rewrite <- powerRZ_add by lra; reflexivity).
  pose proof (powerRZ_2_double 970) as Hd.
  change (970 + 1)%Z with 971%Z in Hd.
  pose proof (powerRZ_2_pos 53) as H53.
  apply Rle_lt_trans with ((powerRZ 2 53 - 1) * powerRZ 2 971); [| nra].
  apply Rmult_le_compat; lra.
Qed.

Lemma representable_IZR (n : Z) :
  (Z.abs n < 2 ^ 53)%Z -> Binary64.representable (IZR n).
Proof.
  intros Hn. exists n, 0%Z. repeat split; try lia.
  cbn [powerRZ]. lra.
Qed.

Lemma representable_pow2 (k : Z) :
  (-1074 <= k <= 1023)%Z -> Binary64.representable (powerRZ 2 k).
Proof.
  intros Hk.
  destruct (Z_le_gt_dec k 971) as [Hle | Hgt].
  - exists 1%Z, k. repeat split; try lia. lra.
  - exists (2 ^ (k - 971))%Z, 971%Z. repeat split; try lia.
    + rewrite Z.abs_eq by (apply Z.pow_nonneg; lia).
      apply Z.pow_lt_mono_r; lia.
    + rewrite <- powerRZ_2_IZR by lia.
      rewrite <- powerRZ_add by lra. f_equal. lia.
Qed.

Lemma representable_opp (x : R) :
  Binary64.representable x -> Binary64.representable (- x).
Proof.
  intros (m & e & Hm & He & ->).
  exists (- m)%Z, e. repeat split; try lia.
  rewrite opp_IZR. lra.
Qed.

Lemma representable_nonzero (x : R) :
  Binary64.representable x -> x <> 0 -> powerRZ 2 (-1074) <= Rabs x.
Proof.
  intros (m & e & Hm & He & ->) Hx.
  rewrite Rabs_mult, (Rabs_pos_eq (powerRZ 2 e)) by (left; apply powerRZ_2_pos).
  rewrite Rabs_Zabs.
  assert (Hm0 : m <> 0%Z) by (intros ->; apply Hx; lra).
  assert (H1 : 1 <= IZR (Z.abs m)) by (apply IZR_le; lia).
  pose proof (powerRZ_2_le (-1074) e ltac:(lia)) as Hp.
  pose proof (powerRZ_2_pos (-1074)) as H0.
  nra.
Qed.

(** [round] is the double that the specification singles out. *)
Lemma round_eq (x : R) (d : Binary64.double) :
  Binary64.rounds_to x d ->
  (forall d', Binary64.rounds_to x d' -> d' = d) ->
  Binary64.round x = d.
Proof.
  intros Hd Huniq. apply Huniq.
  unfold Binary64.round. apply epsilon_spec. now exists d.
Qed.

(** A representable number is its own rounding. *)
Lemma round_representable (x : R) :
  Binary64.representable x -> Binary64.round x = IEEE.finite x.
Proof.
  intros Hx.
  pose proof (representable_bound x Hx) as Hb.
  assert (Hnear : forall y, Binary64.nearest x y -> y = x).
  { intros y [_ Hy]. specialize (Hy x Hx).
    replace (x - x) with 0 in Hy by lra. rewrite Rabs_R0 in Hy.
    pose proof (Rabs_pos (y - x)).
    assert (Rabs (y - x) = 0) as H0 by lra.
    destruct (Req_dec (y - x) 0) as [Hz | Hz]; [lra |].
    apply Rabs_no_R0 in Hz. contradiction. }
  apply round_eq.
  - cbn. split; [exact Hb |]. split.
    + split; [exact Hx |]. intros z _.
      replace (x - x) with 0 by lra. rewrite Rabs_R0. apply Rabs_pos.
    + intros y' Hy' Hne. now apply Hnear in Hy'.
  - intros [y | | |]; cbn.
    + intros (_ & Hy & _). now rewrite (Hnear y Hy).
    + intros H. apply Rabs_def2 in Hb. lra.
    + intros H. apply Rabs_def2 in Hb. lra.
    + intros [].
Qed.

(** A result below half the smallest subnormal number underflows to
    zero. *)
Lemma round_underflow (x : R) :
  Rabs x < powerRZ 2 (-1075) -> Binary64.round x = IEEE.finite 0.
Proof.
  intros Hx.
  pose proof (powerRZ_2_double (-1075)) as Hd.
  change (-1075 + 1)%Z with (-1074)%Z in Hd.
  pose proof (powerRZ_2_pos (-1075)) as Hpos.
  pose proof (overflow_threshold_pos) as Hthr.
  assert (H0 : Binary64.representable 0)
    by (apply (representable_IZR 0); lia).
  assert (Hnear : forall y, Binary64.nearest x y -> y = 0).
  { intros y [Hy Hmin].
    destruct (Req_dec y 0) as [Hz | Hz]; [exact Hz | exfalso].
    pose proof (representable_nonzero y Hy Hz) as Hbig.
    specialize (Hmin 0 H0).
    unfold Rabs in *. repeat destruct Rcase_abs; lra. }
  assert (Hlt : Rabs x < Binary64.overflow_threshold).
  { pose proof (representable_bound _ (representable_pow2 (-1074) ltac:(lia))) as H.
    rewrite Rabs_pos_eq in H by (left; apply powerRZ_2_pos). lra. }
  apply round_eq.
  - cbn. split; [exact Hlt |]. split.
    + split; [exact H0 |]. intros z Hz.
      destruct (Req_dec z 0) as [-> | Hnz]; [lra |].
      pose proof (representable_nonzero z Hz Hnz).
      unfold Rabs in *. repeat destruct Rcase_abs; lra.
    + intros y' Hy' Hne. now apply Hnear in Hy'.
  - intros [y | | |]; cbn.
    + intros (_ & Hy & _). now rewrite (Hnear y Hy).
    + intros H. apply Rabs_def2 in Hlt. lra.
    + intros H. apply Rabs_def2 in Hlt. lra.
    + intros [].
Qed.

(** A result at or beyond the threshold overflows to an infinity. *)
Lemma round_overflow (x : R) :
  Binary64.overflow_threshold <= x -> Binary64.round x = IEEE.pos_inf.
Proof.
  intros Hx. pose proof overflow_threshold_pos as Hthr.
  apply round_eq; [exact Hx |].
  intros [y | | |]; cbn.
  - intros (Hb & _). apply Rabs_def2 in Hb. lra.
  - reflexivity.
  - intros H. lra.
  - intros [].
Qed.

Lemma round_overflow_neg (x : R) :
  x <= - Binary64.overflow_threshold -> Binary64.round x = IEEE.neg_inf.
Proof.
  intros Hx. pose proof overflow_threshold_pos as Hthr.
  apply round_eq; [exact Hx |].
  intros [y | | |]; cbn.
  - intros (Hb & _). apply Rabs_def2 in Hb. lra.
  - intros H. lra.
  - reflexivity.
  - intros [].
Qed.

(** ** Arithmetic on doubles *)

Lemma round_value (x v : R) :
  x = v -> Binary64.representable v -> Binary64.round x = IEEE.finite v.
Proof. intros ->. apply round_representable. Qed.

Lemma representable_0 : Binary64.representable 0.
Proof. apply (representable_IZR 0). lia. Qed.

Lemma sign_case_negative {A : Type} (r : R) (n z p : A) :
  r < 0 -> IEEE.sign_case r n z p = n.
Proof.
  intros H. unfold IEEE.sign_case.
  destruct (total_order_T r 0) as [[_ | Hz] | Hp]; [reflexivity | lra | lra].
Qed.

(** The doubles that the evaluations below start from. *)
Lemma binary64_inputs_representable :
  Binary64.representable 1 /\ Binary64.representable 2 /\
  Binary64.representable 3 /\ Binary64.representable (1 / 2) /\
  Binary64.representable (1 / 4) /\
  Binary64.representable (powerRZ 2 (-600)) /\
  Binary64.representable (powerRZ 2 1023).
Proof.
  assert (H2 : 1 / 2 = powerRZ 2 (-1))
    by (change (powerRZ 2 (-1)) with (/ (2 ^ 1)); simpl; field).
  assert (H4 : 1 / 4 = powerRZ 2 (-2))
    by (change (powerRZ 2 (-2)) with (/ (2 ^ 2)); simpl; field).
  rewrite H2, H4.
  repeat split;
    first [ apply (representable_IZR 1); lia
          | apply (representable_IZR 2); lia
          | apply (representable_IZR 3); lia
          | apply representable_pow2; lia ].
Qed.

Lemma binary64_add_value (a b v : R) :
  a + b = v -> Binary64.representable v ->
  Binary64.add (IEEE.finite a) (IEEE.finite b) = IEEE.finite v.
Proof. intros Hv Hr. cbn. now apply round_value. Qed.

Lemma binary64_sub_value (a b v : R) :
  a - b = v -> Binary64.representable v ->
  Binary64.sub (IEEE.finite a) (IEEE.finite b) = IEEE.finite v.
Proof. intros Hv Hr. cbn. apply round_value; [lra | exact Hr]. Qed.

Lemma binary64_mul_value (a b v : R) :
  a * b = v -> Binary64.representable v ->
  Binary64.mul (IEEE.finite a) (IEEE.finite b) = IEEE.finite v.
Proof. intros Hv Hr. cbn. now apply round_value. Qed.

Lemma binary64_div_value (a b v : R) :
  b <> 0 -> a / b = v -> Binary64.representable v ->
  Binary64.div (IEEE.finite a) (IEEE.finite b) = IEEE.finite v.
Proof.
  intros Hb Hv Hr. cbn. destruct (Req_dec_T b 0); [contradiction |].
  now apply round_value.
Qed.

Lemma binary64_mul_zero_r (a : R) :
  Binary64.mul (IEEE.finite a) (IEEE.finite 0) = IEEE.finite 0.
Proof. apply binary64_mul_value; [ring | exact representable_0]. Qed.

Lemma binary64_mul_zero_l (a : R) :
  Binary64.mul (IEEE.finite 0) (IEEE.finite a) = IEEE.finite 0.
Proof. apply binary64_mul_value; [ring | exact representable_0]. Qed.

Lemma binary64_mul_underflow (a b : R) :
  Rabs (a * b) < powerRZ 2 (-1075) ->
  Binary64.mul (IEEE.finite a) (IEEE.finite b) = IEEE.finite 0.
Proof. intros H. unfold Binary64.mul. now apply round_underflow. Qed.

Lemma powerRZ_2_tiny_square :
  powerRZ 2 (-600) * powerRZ 2 (-600) < powerRZ 2 (-1075).
Proof.
  rewrite <- powerRZ_add by lra. apply powerRZ_2_lt. lia.
Qed.

Lemma binary64_zero_by_zero :
  Binary64.div (IEEE.finite 0) (IEEE.finite 0) = IEEE.nan.
Proof.
  cbn. destruct (Req_dec_T 0 0) as [_ | H]; [| contradiction].
  unfold IEEE.scaled_infinity. now rewrite sign_case_zero.
Qed.

Lemma binary64_add_nan_r (x : IEEE.double) :
  Binary64.add x IEEE.nan = IEEE.nan.
Proof. now destruct x. Qed.

Lemma binary64_sub_nan_r (x : IEEE.double) :
  Binary64.sub x IEEE.nan = IEEE.nan.
Proof. now destruct x. Qed.

Lemma binary64_mul_nan_r (x : IEEE.double) :
  Binary64.mul x IEEE.nan = IEEE.nan.
Proof. now destruct x. Qed.

Lemma binary64_div_nan_r (x : IEEE.double) :
  Binary64.div x IEEE.nan = IEEE.nan.
Proof. now destruct x. Qed.

Lemma binary64_le_nan_r (x : IEEE.double) : Binary64.le x IEEE.nan = false.
Proof. now destruct x. Qed.

Lemma binary64_lt_nan_r (x : IEEE.double) : Binary64.lt x IEEE.nan = false.
Proof. now destruct x. Qed.

(** A NaN operand makes the result NaN. *)
Ltac nan_out :=
  repeat first
    [ rewrite binary64_mul_nan_r | rewrite binary64_sub_nan_r
    | rewrite binary64_add_nan_r | rewrite binary64_div_nan_r
    | progress cbn [Binary64.log Binary64.exp] ].

Section LibraryValues.

Context {L : Binary64.Libm}.

Lemma binary64_exp_zero : Binary64.exp (IEEE.finite 0) = IEEE.finite 1.
Proof. cbn. now destruct (Req_dec_T 0 0). Qed.

Lemma binary64_log_one : Binary64.log (IEEE.finite 1) = IEEE.finite 0.
Proof.
  cbn. rewrite sign_case_positive by lra. now destruct (Req_dec_T 1 1).
Qed.

Lemma binary64_log_zero : Binary64.log (IEEE.finite 0) = IEEE.neg_inf.
Proof. cbn. now rewrite sign_case_zero. Qed.

Lemma binary64_pow_one (y : IEEE.double) :
  Binary64.pow (IEEE.finite 1) y = IEEE.finite 1.
Proof.
  destruct y as [b | | |]; cbn.
  - destruct (Req_dec_T b 0); [reflexivity |].
    now destruct (Req_dec_T 1 1).
  - unfold IEEE.limit_power. rewrite Rabs_R1.
    destruct (total_order_T 1 1) as [[H | _] | H]; try lra. reflexivity.
  - unfold IEEE.limit_power. rewrite Rabs_R1.
    destruct (total_order_T 1 1) as [[H | _] | H]; try lra. reflexivity.
  - now destruct (Req_dec_T 1 1).
Qed.

(** *** A rate constant that is NaN *)

(** A process whose rate constant is NaN reports a child at every draw,
    at the time NaN. *)
Lemma binary64_nan_rate (process : IEEE.Process_M_t)
    (q ti Mi tl : IEEE.double) :
  IEEE.FK process = IEEE.nan ->
  Binary64.next_single_occurrence q ti Mi tl process = Some IEEE.nan.
Proof.
  intros HFK. unfold Binary64.next_single_occurrence.
  assert (HL : Binary64.Lambda_i_oo ti tl Mi process = IEEE.nan).
  { unfold Binary64.Lambda_i_oo. cbv zeta.
    rewrite HFK, binary64_mul_nan_r. reflexivity. }
  rewrite HL. cbn [Binary64.opp IEEE.opp Binary64.exp].
  rewrite binary64_le_nan_r. cbv zeta.
  rewrite HFK, binary64_mul_nan_r.
  change (Binary64.mul IEEE.nan (IEEE.Tref process)) with IEEE.nan.
  rewrite binary64_div_nan_r.
  change (Binary64.mul IEEE.nan (Binary64.log q)) with IEEE.nan.
  rewrite binary64_sub_nan_r.
  cbn [Binary64.log]. rewrite binary64_mul_nan_r. cbn [Binary64.exp].
  rewrite binary64_mul_nan_r, binary64_add_nan_r. reflexivity.
Qed.

(** *** A magnitude range below the resolution of the arithmetic *)

(** [beta * (Mmax - Mmin)] underflows: the truncation weight is zero. *)
Lemma binary64_truncation_underflow :
  Binary64.sub Binary64.one
    (Binary64.exp
       (Binary64.mul (Binary64.opp (IEEE.finite (powerRZ 2 (-600))))
          (Binary64.sub (IEEE.finite (powerRZ 2 (-600))) (IEEE.finite 0))))
  = IEEE.finite 0.
Proof.
  rewrite (binary64_sub_value _ 0 (powerRZ 2 (-600)))
    by (try lra; apply representable_pow2; lia).
  assert (Hm : Binary64.mul (Binary64.opp (IEEE.finite (powerRZ 2 (-600))))
                 (IEEE.finite (powerRZ 2 (-600))) = IEEE.finite 0).
  { change (Binary64.opp (IEEE.finite (powerRZ 2 (-600))))
      with (IEEE.finite (- powerRZ 2 (-600))).
    apply binary64_mul_underflow.
    replace (- powerRZ 2 (-600) * powerRZ 2 (-600))
      with (- (powerRZ 2 (-600) * powerRZ 2 (-600))) by ring.
    pose proof (powerRZ_2_pos (-600)).
    rewrite Rabs_Ropp, Rabs_pos_eq by nra.
    exact powerRZ_2_tiny_square. }
  rewrite Hm, binary64_exp_zero.
  apply binary64_sub_value; [lra | exact representable_0].
Qed.

(** Then every variate gives the magnitude [Mmin]. *)
Lemma binary64_draw_magnitude_underflow (q : R) :
  Binary64.draw_magnitude (IEEE.finite q) (IEEE.finite 0)
    (IEEE.finite (powerRZ 2 (-600))) (IEEE.finite (powerRZ 2 (-600)))
  = IEEE.finite 0.
Proof.
  unfold Binary64.draw_magnitude.
  rewrite binary64_truncation_underflow, binary64_mul_zero_r.
  unfold Binary64.one.
  rewrite (binary64_sub_value 1 0 1)
    by (try lra; apply (representable_IZR 1); lia).
  rewrite binary64_log_one.
  rewrite (binary64_div_value 0 _ 0);
    [| pose proof (powerRZ_2_pos (-600)); lra
     | unfold Rdiv; ring | exact representable_0].
  apply binary64_sub_value; [lra | exact representable_0].
Qed.

(** And the critical rate is zero divided by zero. *)
Lemma binary64_critical_FK_underflow (p : Z) :
  (2 <= p < 2 ^ 53)%Z ->
  Binary64.critical_FK (IEEE.finite 0) (IEEE.finite (powerRZ 2 (-600)))
    (IEEE.finite (IZR p)) (IEEE.finite 1) (IEEE.finite 1)
    (IEEE.finite (powerRZ 2 (-600))) (IEEE.finite 0)
  = IEEE.nan.
Proof.
  intros Hp. unfold Binary64.critical_FK.
  rewrite binary64_truncation_underflow. unfold Binary64.one.
  rewrite (binary64_sub_value (IZR p) 1 (IZR (p - 1)))
    by (try (rewrite minus_IZR; lra); apply representable_IZR; lia).
  rewrite (binary64_div_value 1 1 1)
    by (try lra; apply (representable_IZR 1); lia).
  rewrite binary64_log_one, binary64_mul_zero_r, binary64_exp_zero.
  rewrite (binary64_mul_value _ 1 (IZR (p - 1)))
    by (try lra; apply representable_IZR; lia).
  rewrite (binary64_div_value _ 1 (IZR (p - 1)))
    by (try lra; apply representable_IZR; lia).
  rewrite binary64_mul_zero_r.
  rewrite (binary64_sub_value 0 0 0) by (try lra; exact representable_0).
  rewrite binary64_mul_zero_r, binary64_exp_zero.
  rewrite (binary64_mul_value _ 1 (powerRZ 2 (-600)))
    by (try lra; apply representable_pow2; lia).
  rewrite (binary64_sub_value _ 0 (powerRZ 2 (-600)))
    by (try lra; apply representable_pow2; lia).
  assert (Hm : Binary64.mul (IEEE.finite (powerRZ 2 (-600)))
                 (IEEE.finite (powerRZ 2 (-600))) = IEEE.finite 0).
  { apply binary64_mul_underflow.
    pose proof (powerRZ_2_pos (-600)).
    rewrite Rabs_pos_eq by nra.
    exact powerRZ_2_tiny_square. }
  rewrite Hm. apply binary64_zero_by_zero.
Qed.

(** *** A rate that overflows *)

(** With [FK = 2^1023] and [Tref = 2] the product [f * FK * Tref]
    overflows: the test does not exit early, and the time returned is the
    time [tl] the waiting starts at, or NaN. *)
Lemma binary64_child_at_overflow (mu ln_p : IEEE.double) :
  let process :=
    IEEE.Build mu (IEEE.finite 2) (IEEE.finite 2) (IEEE.finite 1)
      (IEEE.finite 0) (IEEE.finite 2) ln_p (IEEE.finite (powerRZ 2 1023)) in
  exists t : IEEE.double,
    Binary64.next_single_occurrence (IEEE.finite (1 / 2)) (IEEE.finite 0)
      (IEEE.finite 0) (IEEE.finite 0) process = Some t /\
    Binary64.lt (IEEE.finite 0) t = false.
Proof.
  cbv zeta.
  set (process := IEEE.Build mu (IEEE.finite 2) (IEEE.finite 2)
                    (IEEE.finite 1) (IEEE.finite 0) (IEEE.finite 2) ln_p
                    (IEEE.finite (powerRZ 2 1023))).
  assert (R1 : Binary64.representable 1)
    by (apply (representable_IZR 1); lia).
  assert (R2 : Binary64.representable 2)
    by (apply (representable_IZR 2); lia).
  assert (Rm1 : Binary64.representable (-1))
    by (apply (representable_IZR (-1)); lia).
  assert (Rm2 : Binary64.representable (-2))
    by (apply (representable_IZR (-2)); lia).
  pose proof (powerRZ_2_double 1023) as Hd.
  change (1023 + 1)%Z with 1024%Z in Hd.
  pose proof (powerRZ_2_pos 970) as H970.
  assert (Hf : Binary64.f (IEEE.finite 0) process = IEEE.finite 1).
  { unfold Binary64.f. cbn [IEEE.beta IEEE.Mr process].
    rewrite (binary64_sub_value 0 0 0) by (try lra; exact representable_0).
    rewrite binary64_mul_zero_r. apply binary64_exp_zero. }
  assert (H1mp : Binary64.sub Binary64.one (IEEE.p process)
                 = IEEE.finite (-1)).
  { cbn [IEEE.p process]. unfold Binary64.one.
    apply binary64_sub_value; [lra | exact Rm1]. }
  assert (Hbase : Binary64.div
                    (Binary64.add
                       (Binary64.sub (IEEE.finite 0) (IEEE.finite 0))
                       (IEEE.c process)) (IEEE.Tref process)
                  = IEEE.finite 1).
  { cbn [IEEE.c IEEE.Tref process].
    rewrite (binary64_sub_value 0 0 0) by (try lra; exact representable_0).
    rewrite (binary64_add_value 0 2 2) by (try lra; exact R2).
    apply binary64_div_value; [lra | lra | exact R1]. }
  assert (HL : Binary64.Lambda_i_oo (IEEE.finite 0) (IEEE.finite 0)
                 (IEEE.finite 0) process = IEEE.pos_inf).
  { unfold Binary64.Lambda_i_oo. cbv zeta.
    rewrite Hf, H1mp, Hbase, binary64_pow_one.
    cbn [IEEE.Tref IEEE.FK process].
    change (Binary64.opp (IEEE.finite 1)) with (IEEE.finite (- 1)).
    rewrite (binary64_mul_value (- 1) 2 (-2)) by (try lra; exact Rm2).
    assert (Hm : Binary64.mul (IEEE.finite (-2))
                   (IEEE.finite (powerRZ 2 1023)) = IEEE.neg_inf).
    { unfold Binary64.mul. apply round_overflow_neg.
      unfold Binary64.overflow_threshold. lra. }
    rewrite Hm.
    assert (Hq : Binary64.div IEEE.neg_inf (IEEE.finite (-1))
                 = IEEE.pos_inf).
    { cbn. now rewrite sign_case_negative by lra. }
    rewrite Hq. cbn. unfold IEEE.scaled_infinity.
    now rewrite sign_case_positive by lra. }
  unfold Binary64.next_single_occurrence.
  rewrite HL. cbv zeta.
  change (Binary64.exp (Binary64.opp IEEE.pos_inf)) with (IEEE.finite 0).
  assert (Hle : Binary64.le (IEEE.finite (1 / 2)) (IEEE.finite 0) = false).
  { cbn. destruct (Rle_dec (1 / 2) 0); [lra | reflexivity]. }
  rewrite Hle, Hf, H1mp, Hbase, binary64_pow_one.
  cbn [IEEE.Tref IEEE.FK IEEE.c process].
  rewrite (binary64_mul_value 1 (powerRZ 2 1023) (powerRZ 2 1023))
    by (try lra; apply representable_pow2; lia).
  assert (Hm : Binary64.mul (IEEE.finite (powerRZ 2 1023)) (IEEE.finite 2)
               = IEEE.pos_inf).
  { unfold Binary64.mul. apply round_overflow.
    unfold Binary64.overflow_threshold. lra. }
  rewrite Hm.
  change (Binary64.div (IEEE.finite (-1)) IEEE.pos_inf) with (IEEE.finite 0).
  eexists. split; [reflexivity |].
  destruct (Binary64.log (IEEE.finite (1 / 2))) as [l | | |].
  - rewrite binary64_mul_zero_l.
    rewrite (binary64_sub_value 1 0 1) by (try lra; exact R1).
    rewrite binary64_log_one.
    unfold Binary64.one.
    rewrite (binary64_div_value 1 (-1) (-1))
      by (try lra; try exact Rm1; unfold Rdiv; field).
    rewrite binary64_mul_zero_r, binary64_exp_zero.
    rewrite (binary64_mul_value 2 1 2) by (try lra; exact R2).
    rewrite (binary64_sub_value 0 2 (-2)) by (try lra; exact Rm2).
    rewrite (binary64_add_value (-2) 2 0)
      by (try lra; exact representable_0).
    cbn. destruct (Rlt_dec 0 0); [lra | reflexivity].
  - assert (Hz : Binary64.mul (IEEE.finite 0) IEEE.pos_inf = IEEE.nan).
    { cbn. unfold IEEE.scaled_infinity. now rewrite sign_case_zero. }
    rewrite Hz. nan_out. apply binary64_lt_nan_r.
  - assert (Hz : Binary64.mul (IEEE.finite 0) IEEE.neg_inf = IEEE.nan).
    { cbn. unfold IEEE.scaled_infinity. now rewrite sign_case_zero. }
    rewrite Hz. nan_out. apply binary64_lt_nan_r.
  - nan_out. apply binary64_lt_nan_r.
Qed.

(** *** The endpoint zero of the unit interval *)

Lemma binary64_background_at_zero (process : IEEE.Process_M_t) (tl mu : R) :
  IEEE.mu_0 process = IEEE.finite mu -> 0 < mu ->
  Binary64.next_background_occurrence (IEEE.finite 0) (IEEE.finite tl) process
  = IEEE.pos_inf.
Proof.
  intros Hmu Hpos. unfold Binary64.next_background_occurrence.
  rewrite binary64_log_zero, Hmu. cbn.
  now rewrite sign_case_positive.
Qed.

End LibraryValues.

(** ** The simulation in binary64 arithmetic *)

Lemma binary64_list_queue_laws :
  Binary64.PriorityQueueLaws Binary64.list_queue.
Proof.
  constructor; cbn.
  - reflexivity.
  - intros [| e rest]; split; try reflexivity; discriminate.
  - intros [| e rest]; split; try reflexivity; discriminate.
  - intros [| a rest] e H; [discriminate |]. injection H as <-. now left.
  - intros [| a rest] e H; [discriminate |]. injection H as <-. reflexivity.
  - intros q e. induction q as [| x rest IH]; cbn; [reflexivity |].
    destruct (Binary64.lt (Binary64.tnext e) (Binary64.tnext x));
      [reflexivity |].
    etransitivity; [apply perm_skip, IH | apply perm_swap].
Qed.

Section NanRate.

Context {L : Binary64.Libm} {G : Type} {RE : Binary64.RandomEngine G}
        {Q : Type} {PQ : Binary64.PriorityQueue Q}.
Hypothesis laws : Binary64.PriorityQueueLaws PQ.

Variables Mmin Mmax beta : IEEE.double.
Variable process : IEEE.Process_M_t.
Hypothesis FK_nan : IEEE.FK process = IEEE.nan.

(** With a rate constant that is NaN the first event, a background event,
    opens a stream whose pending time is NaN. *)
Lemma binary64_first_event_opens_stream (seed : Z) :
  exists e : Binary64.excitement_t,
    Binary64.pq_elements
      (Binary64.st_descendants
         (Binary64.state_after (G := G) (Q := Q) Mmin Mmax beta process
            seed 1)) = [e] /\
    Binary64.tnext e = IEEE.nan.
Proof.
  unfold Binary64.state_after. cbn [iterate].
  set (s0 := Binary64.initial_state (G := G) (Q := Q) process seed).
  assert (Hnil : Binary64.pq_elements (Binary64.st_descendants s0) = [])
    by apply (Binary64.pq_empty_elements PQ laws).
  assert (Hb : Binary64.takes_background s0 = true).
  { unfold Binary64.takes_background.
    apply (Binary64.pq_is_empty_spec PQ laws) in Hnil. now rewrite Hnil. }
  unfold Binary64.next_event, Binary64.next_time. rewrite Hb.
  unfold Binary64.mark_and_trigger.
  rewrite binary64_nan_rate by exact FK_nan.
  cbn [Binary64.st_descendants Binary64.background_event].
  match goal with
  | |- context [Binary64.pq_push ?x _] => set (e := x)
  end.
  exists e. split; [| reflexivity].
  pose proof (Binary64.pq_push_spec PQ laws (Binary64.st_descendants s0) e)
    as Hpush.
  rewrite Hnil in Hpush. apply Permutation_sym in Hpush.
  apply Permutation_length_1_inv in Hpush. exact Hpush.
Qed.

(** The second event is then that stream's: its time is NaN. *)
Lemma binary64_second_event_time (seed : Z) :
  Binary64.st_t
    (Binary64.state_after (G := G) (Q := Q) Mmin Mmax beta process seed 2)
  = IEEE.nan.
Proof.
  destruct (binary64_first_event_opens_stream seed) as (e & Hel & Hnan).
  unfold Binary64.state_after in *. cbn [iterate] in *.
  set (s1 := Binary64.next_event Mmin Mmax beta process
               (Binary64.initial_state (G := G) (Q := Q) process seed)) in *.
  assert (Hne : Binary64.pq_is_empty (Binary64.st_descendants s1) = false).
  { destruct (Binary64.pq_is_empty (Binary64.st_descendants s1)) eqn:He;
      [| reflexivity].
    apply (Binary64.pq_is_empty_spec PQ laws) in He.
    rewrite Hel in He. discriminate. }
  destruct (Binary64.pq_top (Binary64.st_descendants s1)) as [top |] eqn:Htop.
  - pose proof (Binary64.pq_top_spec PQ laws _ _ Htop) as Hin.
    rewrite Hel in Hin. destruct Hin as [<- | []].
    unfold Binary64.next_event, Binary64.next_time,
      Binary64.takes_background.
    rewrite Hne, Htop, Hnan, binary64_lt_nan_r. cbn [orb].
    unfold Binary64.mark_and_trigger, Binary64.descendant_event.
    cbn [Binary64.st_t]. exact Hnan.
  - apply (Binary64.pq_top_none PQ laws) in Htop.
    rewrite Hel in Htop. discriminate.
Qed.

End NanRate.

(** ** The order of the streams *)

Lemma binary64_lt_irrefl (x : IEEE.double) : Binary64.lt x x = false.
Proof.
  destruct x as [a | | |]; try reflexivity.
  cbn. destruct (Rlt_dec a a); [lra | reflexivity].
Qed.

Lemma binary64_lt_trans (x y z : IEEE.double) :
  Binary64.lt x y = true -> Binary64.lt y z = true ->
  Binary64.lt x z = true.
Proof.
  destruct x as [a | | |], y as [b | | |], z as [c | | |]; cbn;
    try discriminate; try reflexivity.
  destruct (Rlt_dec a b), (Rlt_dec b c), (Rlt_dec a c);
    try discriminate; try reflexivity; lra.
Qed.

(** Among doubles that are not NaN, two that are not [<] either way are
    equal. *)
Lemma binary64_lt_incomparable (x y : IEEE.double) :
  x <> IEEE.nan -> y <> IEEE.nan ->
  Binary64.lt x y = false -> Binary64.lt y x = false -> x = y.
Proof.
  destruct x as [a | | |], y as [b | | |]; cbn;
    try discriminate; try reflexivity; try congruence.
  destruct (Rlt_dec a b), (Rlt_dec b a); try discriminate.
  intros _ _ _ _. f_equal. lra.
Qed.

(** X23: [operator<] of [excitement_t], a comparison of doubles, is
    irreflexive and transitive, and [operator>] is its converse.  On
    streams whose [tnext] is not NaN it is a strict weak ordering, as
    [std::priority_queue] requires of its comparison: incomparability is
    equality of [tnext], hence transitive.  With a NaN it is not: a stream
    whose [tnext] is NaN is incomparable with every stream, also with two
    that are ordered. *)
Theorem excitement_order_is_strict_weak :
  (forall a : Binary64.excitement_t, Binary64.excitement_lt a a = false) /\
  (forall a b c : Binary64.excitement_t,
     Binary64.excitement_lt a b = true ->
     Binary64.excitement_lt b c = true ->
     Binary64.excitement_lt a c = true) /\
  (forall a b : Binary64.excitement_t,
     Binary64.excitement_gt a b = Binary64.excitement_lt b a) /\
  (forall a b : Binary64.excitement_t,
     Binary64.tnext a <> IEEE.nan -> Binary64.tnext b <> IEEE.nan ->
     Binary64.excitement_lt a b = false ->
     Binary64.excitement_lt b a = false ->
     Binary64.tnext a = Binary64.tnext b) /\
  (forall a b c : Binary64.excitement_t,
     Binary64.tnext a <> IEEE.nan -> Binary64.tnext b <> IEEE.nan ->
     Binary64.tnext c <> IEEE.nan ->
     Binary64.excitement_lt a b = false ->
     Binary64.excitement_lt b a = false ->
     Binary64.excitement_lt b c = false ->
     Binary64.excitement_lt c b = false ->
     Binary64.excitement_lt a c = false /\
     Binary64.excitement_lt c a = false) /\
  (forall a b : Binary64.excitement_t,
     Binary64.tnext b = IEEE.nan ->
     Binary64.excitement_lt a b = false /\
     Binary64.excitement_lt b a = false) /\
  (let a := Binary64.Build_excitement_t (IEEE.finite 0) (IEEE.finite 0)
              (IEEE.finite 1) in
   let b := Binary64.Build_excitement_t (IEEE.finite 0) (IEEE.finite 0)
              IEEE.nan in
   let c := Binary64.Build_excitement_t (IEEE.finite 0) (IEEE.finite 0)
              (IEEE.finite 2) in
   Binary64.excitement_lt a b = false /\
   Binary64.excitement_lt b a = false /\
   Binary64.excitement_lt b c = false /\
   Binary64.excitement_lt c b = false /\
   Binary64.excitement_lt c a = true).
Proof.
  unfold Binary64.excitement_lt, Binary64.excitement_gt.
  split; [intros a; apply binary64_lt_irrefl |].
  split; [intros a b c Hab Hbc; now apply binary64_lt_trans
                                      with (Binary64.tnext b) |].
  split; [reflexivity |].
  split; [intros a b Ha Hb H1 H2; now apply binary64_lt_incomparable |].
  split.
  - intros a b c Ha Hb Hc H1 H2 H3 H4.
    rewrite (binary64_lt_incomparable _ _ Ha Hb H2 H1).
    rewrite (binary64_lt_incomparable _ _ Hb Hc H4 H3).
    split; apply binary64_lt_irrefl.
  - split.
    + intros a b Hb. rewrite Hb. split; [| apply binary64_lt_nan_r].
      now destruct (Binary64.tnext a).
    + cbv zeta. cbn.
      destruct (Rlt_dec 1 2); [| lra]. repeat split.
Qed.

(** ** The samplers: the closed forms, and what binary64 makes of them *)

Lemma sanity_double_none (Mmin Mmax p offspring_fraction : R) :
  Mmin < Mmax -> 1 < p -> 0 <= offspring_fraction < 1 ->
  IEEE_checks.sanity (IEEE.finite Mmin) (IEEE.finite Mmax) (IEEE.finite p)
    (IEEE.finite offspring_fraction) = None.
Proof.
  intros HM Hp Hof. rewrite sanity_checks_refine. now apply sanity_none.
Qed.

Lemma binary64_mul_comm (x y : IEEE.double) :
  Binary64.mul x y = Binary64.mul y x.
Proof.
  destruct x as [a | | |], y as [b | | |]; try reflexivity.
  cbn. f_equal. ring.
Qed.

(** The test of [next_single_occurrence], as the code makes it. *)
Lemma binary64_next_single_occurrence_test {L : Binary64.Libm}
    (process : IEEE.Process_M_t) (q ti Mi tl : IEEE.double) :
  Binary64.next_single_occurrence q ti Mi tl process = None <->
  Binary64.le q
    (Binary64.exp (Binary64.opp (Binary64.Lambda_i_oo ti tl Mi process)))
  = true.
Proof.
  unfold Binary64.next_single_occurrence.
  destruct (Binary64.le q _); split; try reflexivity; discriminate.
Qed.






(** What the closed form [K* / Tref^p] is at the parameters of the
    counterexamples: a positive real number. *)
Lemma K_star_positive (Mmin Mmax p c beta : R) :
  Mmin < Mmax -> 1 < p -> 0 < c -> 0 < beta ->
  0 < K_star Mmin Mmax p c beta.
Proof.
  intros HM Hp Hc Hb. unfold K_star.
  assert (HD : 0 < beta * (Mmax - Mmin)) by nra.
  apply Rdiv_lt_0_compat; [| exact HD].
  apply Rmult_lt_0_compat;
    [apply Rmult_lt_0_compat; [lra | apply Rpower_pos] |].
  replace (- beta * (Mmax - Mmin)) with (- (beta * (Mmax - Mmin))) by ring.
  now apply one_minus_exp_pos.
Qed.








(** ** Runs in exact arithmetic *)

(** *** Without offspring *)

Lemma uniform_open_le {G : Type} {RE : RandomEngine G} :
  uniform_open RE -> forall g : G, fst (uniform g) <= 1.
Proof. intros Hopen g. left. apply Hopen. Qed.

Section BackgroundOnly.

Context {G : Type} {RE : RandomEngine G} {Q : Type} {PQ : PriorityQueue Q}.
Hypothesis laws : PriorityQueueLaws PQ.
Hypothesis variates : forall g : G, fst (uniform g) <= 1.

Variables Mmin Mmax beta : R.
Variable process : Process_M_t.t.
Hypothesis FK_zero : Process_M_t.FK process = 0.

Local Abbreviation step := (next_event (G := G) (Q := Q) Mmin Mmax beta process).

(** With an empty queue and no offspring, [next_event] emits the pending
    background candidate, draws the next one and leaves the queue empty. *)
Lemma background_only_step (s : sim_state G Q) :
  pq_elements (st_descendants s) = [] ->
  next_time process s = background_event process s /\
  st_descendants (step s) = st_descendants s /\
  st_t (step s) = st_next_bg s /\
  st_next_bg (step s)
    = next_background_occurrence (fst (uniform (st_rng s))) (st_t (step s)) process.
Proof.
  intros Hnil.
  assert (Hb : takes_background s = true)
    by (apply (takes_background_iff laws); now left).
  rewrite (next_time_background process s Hb).
  split; [reflexivity|].
  unfold next_event. rewrite (next_time_background process s Hb).
  unfold mark_and_trigger, background_event. cbn.
  rewrite next_single_occurrence_FK_zero;
    [| assumption | apply variates].
  repeat split.
Qed.

Lemma background_only_iterate (seed : Z) (k : nat) :
  let s := state_after (G := G) (Q := Q) Mmin Mmax beta process seed k in
  pq_elements (st_descendants s) = [] /\
  exists g : G,
    st_next_bg s = next_background_occurrence (fst (uniform g)) (st_t s) process.
Proof.
  unfold state_after. induction k as [|k IH].
  - cbn. split; [apply (pq_empty_elements PQ laws)|].
    now exists (rng_seed seed).
  - cbv zeta in IH |- *. rewrite iterate_succ.
    destruct IH as [Hnil _].
    destruct (background_only_step _ Hnil) as (_ & Hq & _ & Hbg).
    rewrite Hq. split; [assumption|].
    eexists. exact Hbg.
Qed.

End BackgroundOnly.


(** *** An instance with children *)

Lemma eager_variate_open : 0 < eager_variate < 1.
Proof.
  unfold eager_variate. split; [apply exp_pos|].
  apply Rlt_le_trans with (exp 0); [apply exp_increasing; lra |].
  rewrite exp_0. lra.
Qed.

Lemma eager_engine_open : uniform_open eager_engine.
Proof. intros g. apply eager_variate_open. Qed.

Lemma exp_minus_one_below_half : exp (- (1)) < 1 / 2.
Proof.
  pose proof (exp_ineq1 1 ltac:(lra)) as H.
  rewrite exp_Ropp. pose proof (exp_pos 1) as Hpos.
  apply Rmult_lt_reg_r with (exp 1); [exact Hpos |].
  rewrite Rinv_l by lra. lra.
Qed.

(** Under [eager_engine] the first event of a call with half the critical
    offspring opens a stream. *)
Lemma eager_first_event :
  let process := entry_process 1 0 1 1 2 1 0 (1/2) in
  let s1 := state_after (RE := eager_engine) (PQ := list_queue)
              0 1 1 process 0 1 in
  exists tn : R,
    st_descendants s1 = [excitement_t.Build (st_t s1) (st_M s1) tn].
Proof.
  cbv zeta. unfold state_after. cbn [iterate]. unfold next_event.
  set (process := entry_process 1 0 1 1 2 1 0 (1/2)).
  set (s0 := next_time process
               (initial_state (RE := eager_engine) (PQ := list_queue)
                  process 0)).
  assert (Hq0 : st_descendants s0 = []) by reflexivity.
  assert (Hg0 : fst (uniform (RandomEngine := eager_engine)
                       (snd (uniform (RandomEngine := eager_engine)
                               (st_rng s0)))) = eager_variate)
    by reflexivity.
  assert (HM0 : fst (uniform (RandomEngine := eager_engine) (st_rng s0))
                = eager_variate) by reflexivity.
  unfold mark_and_trigger. cbn [st_t st_M st_descendants].
  rewrite Hq0, Hg0, HM0.
  set (M := draw_magnitude eager_variate 0 1 1).
  assert (HM : 0 <= M <= 1).
  { apply draw_magnitude_closed_range; [lra | lra |].
    pose proof eager_variate_open. lra. }
  rewrite next_single_occurrence_some.
  - eexists. reflexivity.
  - unfold Lambda_i_oo, f, process, entry_process, new_Process_M_t,
      critical_FK. cbv zeta.
    cbn [Process_M_t.p Process_M_t.c Process_M_t.Tref Process_M_t.FK
         Process_M_t.beta Process_M_t.Mr].
    replace ((st_t s0 - st_t s0 + 1) / 1) with 1 by field.
    replace (1 / 1) with 1 by field.
    assert (HR : Rpower 1 (1 - 2) = 1).
    { unfold Rpower. rewrite ln_1, Rmult_0_r. apply exp_0. }
    rewrite HR, ln_1, Rmult_0_r.
    replace (1 * (0 - 0)) with 0 by ring. rewrite exp_0.
    replace (- (1) * (1 - 0)) with (- (1)) by ring.
    replace (1 * (M - 0)) with M by ring.
    pose proof exp_minus_one_below_half as Hhalf.
    assert (H1 : 1 <= exp M).
    { rewrite <- exp_0. destruct (proj1 HM) as [Hlt | <-]; [|lra].
      left. now apply exp_increasing. }
    unfold eager_variate. intros Hle.
    assert (Harg :
      - (- exp M * 1 * ((2 - 1) * 1 / 1 * (1 - exp (- (1))) / (1 * 1 * (1 - 0))
                        * (1 / 2)) / (1 - 2) * 1)
      < - (1 / 4)).
    { replace (- (- exp M * 1 * ((2 - 1) * 1 / 1 * (1 - exp (- (1)))
                                 / (1 * 1 * (1 - 0)) * (1 / 2))
                  / (1 - 2) * 1))
        with (- (exp M * ((1 - exp (- (1))) / 2))) by field.
      nra. }
    destruct Hle as [Hlt | Heq].
    + apply exp_lt_inv in Hlt. lra.
    + apply exp_inv in Heq. lra.
Qed.

(** *** Calls that are well posed *)

Lemma entry_process_well_posed
    (mu_0 Mmin Mmax beta p c Mr offspring_fraction : R) :
  well_posed mu_0 Mmin Mmax beta p c offspring_fraction ->
  let process := entry_process mu_0 Mmin Mmax beta p c Mr offspring_fraction in
  1 < Process_M_t.p process /\ 0 < Process_M_t.c process /\
  0 < Process_M_t.Tref process /\ 0 <= Process_M_t.FK process /\
  0 < Process_M_t.mu_0 process.
Proof.
  intros (Hs & Hmu & Hc & Hb). apply sanity_none in Hs as (HM & Hp & Hof).
  cbn. repeat split; try lra.
  pose proof (critical_FK_pos Mmin Mmax p c 1 beta Mr HM Hp Hc Hb).
  apply Rmult_le_pos; lra.
Qed.


(** *** Where the samplers are defined *)

Lemma draw_magnitude_finite_intro (q Mmin Mmax beta : R) :
  0 < q < 1 -> beta <> 0 -> Mmin < Mmax ->
  draw_magnitude_finite q Mmin Mmax beta.
Proof.
  intros Hq Hb HM. split; [|assumption].
  destruct (Rtotal_order beta 0) as [Hneg | [Hz | Hpos]]; [| contradiction |].
  - assert (0 < - beta * (Mmax - Mmin)) by nra.
    assert (exp 0 < exp (- beta * (Mmax - Mmin))) by (apply exp_increasing; lra).
    rewrite exp_0 in *. nra.
  - pose proof (survival_bounds Mmin Mmax beta Hpos HM q Hq) as [Hlo _].
    pose proof (exp_pos (- beta * (Mmax - Mmin))).
    unfold truncation_weight in Hlo. lra.
Qed.

Lemma next_single_occurrence_finite_intro (process : Process_M_t.t)
    (q ti Mi tl : R) :
  1 < Process_M_t.p process -> 0 < Process_M_t.c process ->
  0 < Process_M_t.Tref process -> 0 <= Process_M_t.FK process ->
  ti <= tl -> 0 < q < 1 ->
  next_single_occurrence_finite q ti Mi tl process.
Proof.
  intros Hp Hc HT HFK Htl Hq. split.
  - repeat split; try lra. apply Rdiv_lt_0_compat; lra.
  - intros Hnle. destruct HFK as [HFK | HFK].
    + split; [lra|]. split.
      * pose proof (exp_pos (Process_M_t.beta process
                             * (Mi - Process_M_t.Mr process))) as Hf.
        fold (f Mi process) in Hf.
        assert (0 < f Mi process * Process_M_t.FK process
                    * Process_M_t.Tref process)
          by (apply Rmult_lt_0_compat; [apply Rmult_lt_0_compat|]; assumption).
        lra.
      * apply (inverse_argument_bounds process Hp HT q ti Mi tl HFK Hq Hnle).
    + exfalso. apply Hnle.
      assert (HL : Lambda_i_oo ti tl Mi process = 0).
      { unfold Lambda_i_oo. cbv zeta. rewrite <- HFK. unfold Rdiv. ring. }
      rewrite HL, Ropp_0, exp_0. lra.
Qed.

Section WellDefined.

Context {G : Type} {RE : RandomEngine G} {Q : Type} {PQ : PriorityQueue Q}.
Hypothesis laws : PriorityQueueLaws PQ.
Hypothesis variates : uniform_open RE.

Variables Mmin Mmax beta : R.
Variable process : Process_M_t.t.
Hypothesis M_range : Mmin < Mmax.
Hypothesis beta_nonzero : beta <> 0.
Hypothesis p_gt_1 : 1 < Process_M_t.p process.
Hypothesis c_pos : 0 < Process_M_t.c process.
Hypothesis Tref_pos : 0 < Process_M_t.Tref process.
Hypothesis FK_nonneg : 0 <= Process_M_t.FK process.
Hypothesis mu_pos : 0 < Process_M_t.mu_0 process.

Lemma next_event_finite_intro (s : sim_state G Q) :
  schedule_invariant s -> next_event_finite Mmin Mmax beta process s.
Proof.
  intros Hinv. unfold next_event_finite. cbv zeta.
  assert (Hbgf : next_background_occurrence_finite
                   (fst (uniform (st_rng s))) process).
  { split; [apply variates | lra]. }
  split; [|split].
  - destruct (takes_background s) eqn:Hb; [exact Hbgf|].
    destruct (next_time_descendant process s Hb) as (top & Htop & _ & _).
    rewrite Htop.
    destruct (pq_top_spec PQ laws _ _ Htop) as [Hin _].
    destruct Hinv as [_ Hq]. rewrite Forall_forall in Hq.
    destruct (Hq top Hin) as [Hanc _].
    apply next_single_occurrence_finite_intro;
      try assumption; apply variates.
  - apply draw_magnitude_finite_intro; try assumption. apply variates.
  - apply next_single_occurrence_finite_intro;
      try assumption; [lra | apply variates].
Qed.

End WellDefined.


(** ** A process without offspring *)

(** The product of the critical rate and a zero offspring fraction. *)
Lemma binary64_mul_by_zero (x : IEEE.double) :
  Binary64.mul x (IEEE.finite 0)
  = match x with IEEE.finite _ => IEEE.finite 0 | _ => IEEE.nan end.
Proof.
  destruct x as [a | | |]; try reflexivity.
  - apply binary64_mul_zero_r.
  - cbn. unfold IEEE.scaled_infinity. now rewrite sign_case_zero.
  - cbn. unfold IEEE.scaled_infinity. now rewrite sign_case_zero.
Qed.



(** The call whose magnitude range is below the resolution of the
    arithmetic: [mu_0 = 1], [Mmin = Mr = 0], [Mmax = beta = 2^-600],
    [p = 2], [c = 1].  Its rate constant is NaN whatever the offspring
    fraction. *)
Lemma binary64_underflow_rate {L : Binary64.Libm} (fraction : IEEE.double) :
  IEEE.FK
    (Binary64.entry_process (IEEE.finite 1) (IEEE.finite 0)
       (IEEE.finite (powerRZ 2 (-600))) (IEEE.finite (powerRZ 2 (-600)))
       (IEEE.finite 2) (IEEE.finite 1) (IEEE.finite 0) fraction)
  = IEEE.nan.
Proof.
  unfold Binary64.entry_process, Binary64.new_Process_M_t. cbn [IEEE.FK].
  unfold Binary64.one.
  rewrite (binary64_critical_FK_underflow 2) by lia. reflexivity.
Qed.


(** ** The catalog is ordered in time *)




(** ** Every sampler evaluation is well defined *)



